(** * mysql-binlog-rs: a shallow embedding of the binlog client's codecs,
    GTID bookkeeping and change-record construction. *)

From Stdlib Require Import ZArith List Bool Ascii String Lia Btauto.
Import ListNotations.
Open Scope Z_scope.

(* ------------------------------------------------------------------ *)
(** ** Errors and the result type (src/error.rs) *)

Inductive CdcError : Type :=
| ConnectionError (m : string)
| BinlogParseError (m : string)
| InvalidEvent (m : string)
| GtidError (m : string)
| QueryError (m : string)
| IoError (m : string)
| ProtocolError (m : string).

(** [Result<T>] of the crate, extended with [Panic] for the points where
    the Rust code would abort ([unwrap] on [Err], arithmetic overflow in a
    checked build, out-of-bounds indexing). *)
Inductive outcome (A : Type) : Type :=
| Ok (a : A)
| Err (e : CdcError)
| Panic.
Arguments Ok {A} a.
Arguments Err {A} e.
Arguments Panic {A}.

Definition bind {A B} (m : outcome A) (k : A -> outcome B) : outcome B :=
  match m with
  | Ok a => k a
  | Err e => Err e
  | Panic => Panic
  end.

Notation "'let*' x ':=' m 'in' k" := (bind m (fun x => k))
  (at level 200, x name, m at level 100, right associativity).

(** [unwrap] on a [Result]. *)
Definition unwrap {A} (m : outcome A) : outcome A :=
  match m with
  | Ok a => Ok a
  | _ => Panic
  end.

(* ------------------------------------------------------------------ *)
(** ** Bytes and little-endian cursors (byteorder over io::Cursor) *)

(** A byte is a [Z] in [0, 256). *)
Definition byte := Z.
Definition bytes := list byte.

Definition U64_MAX : Z := 2 ^ 64 - 1.
Definition is_u64 (x : Z) : Prop := 0 <= x <= U64_MAX.

(** Message of [io::ErrorKind::UnexpectedEof] raised by [read_exact]. *)
Definition eof_msg : string := "failed to fill whole buffer".

(** [read_exact] of [n] bytes from the cursor. *)
Definition read_exact (n : nat) (cur : bytes) : outcome (bytes * bytes) :=
  if Nat.ltb (List.length cur) n then Err (IoError eof_msg)
  else Ok (firstn n cur, skipn n cur).

(** Little-endian value of a byte string. *)
Fixpoint le_value (bs : bytes) : Z :=
  match bs with
  | [] => 0
  | b :: bs' => b + 256 * le_value bs'
  end.

(** Little-endian encoding of [v] on [n] bytes ([v as uN], truncating). *)
Fixpoint le_bytes (n : nat) (v : Z) : bytes :=
  match n with
  | O => []
  | S n' => (v mod 256) :: le_bytes n' (v / 256)
  end.

Definition read_u8 (cur : bytes) : outcome (Z * bytes) :=
  match cur with
  | [] => Err (IoError eof_msg)
  | b :: rest => Ok (b, rest)
  end.

Definition read_le (n : nat) (cur : bytes) : outcome (Z * bytes) :=
  let* p := read_exact n cur in Ok (le_value (fst p), snd p).

Definition read_u16_le := read_le 2.
Definition read_u24_le := read_le 3.
Definition read_u32_le := read_le 4.
Definition read_u64_le := read_le 8.

(* ------------------------------------------------------------------ *)
(** ** Length-coded binary (src/binlog.rs, [read_lcb]) *)

Definition read_lcb (cur : bytes) : outcome (Z * bytes) :=
  let* p := read_u8 cur in
  let (byte, rest) := p in
  if byte <=? 250 then Ok (byte, rest)
  else if byte =? 251 then Ok (0, rest)
  else if byte =? 252 then read_u24_le rest
  else if byte =? 253 then read_u24_le rest
  else if byte =? 254 then read_u64_le rest
  else Err (BinlogParseError "Invalid LCB value").

(** The decoding the length-coded-binary format documents, written from its
    description: [0xFC] is followed by a two-byte value. *)
Definition read_lcb_documented (cur : bytes) : outcome (Z * bytes) :=
  let* p := read_u8 cur in
  let (byte, rest) := p in
  if byte <=? 250 then Ok (byte, rest)
  else if byte =? 251 then Ok (0, rest)
  else if byte =? 252 then read_u16_le rest
  else if byte =? 253 then read_u24_le rest
  else if byte =? 254 then read_u64_le rest
  else Err (BinlogParseError "Invalid LCB value").

(** [Result::map_err]. *)
Definition map_err {A} (f : CdcError -> CdcError) (m : outcome A) : outcome A :=
  match m with
  | Err e => Err (f e)
  | r => r
  end.

Definition io_message (e : CdcError) : string :=
  match e with
  | IoError m => m
  | _ => ""
  end.

(* ------------------------------------------------------------------ *)
(** ** Packet channel (src/protocol.rs, [PacketChannel::read_packet])

    The TCP stream is the list of bytes still to arrive; [read_packet]
    returns the packet body and the bytes left in the stream. *)

Definition MAX_PACKET_LENGTH : Z := 16777215.

(** tokio's [AsyncReadExt::read_exact] on the stream: at end of stream it
    fails with [UnexpectedEof] and the message ["early eof"]. *)
Definition stream_read_exact (n : nat) (cur : bytes) : outcome (bytes * bytes) :=
  map_err (fun _ => IoError "early eof") (read_exact n cur).

(** tokio's [AsyncReadExt::read_u8] on the stream: at end of stream it
    fails with the bare [UnexpectedEof] kind, shown as
    ["unexpected end of file"]. *)
Definition stream_read_u8 (cur : bytes) : outcome (Z * bytes) :=
  map_err (fun _ => IoError "unexpected end of file") (read_u8 cur).

Definition read_packet (stream : bytes) : outcome (bytes * bytes) :=
  let* h := map_err (fun e => IoError (String.append
              "Failed to read packet length: " (io_message e)))
              (stream_read_exact 3 stream) in
  let (len_buf, s1) := h in
  let length := le_value (len_buf ++ [0]) in
  let* q := map_err (fun e => IoError (String.append
              "Failed to read sequence: " (io_message e)))
              (stream_read_u8 s1) in
  let (_sequence, s2) := q in
  map_err (fun e => IoError (String.append
             "Failed to read packet body: " (io_message e)))
          (stream_read_exact (Z.to_nat length) s2).

(** A frame as it travels on the wire: [len:3 LE][seq:1][body]. *)
Definition frame (seq : Z) (body : bytes) : bytes :=
  le_bytes 3 (Z.of_nat (List.length body)) ++ [seq] ++ body.

(* ------------------------------------------------------------------ *)
(** ** Strings as the code handles them

    A Rust [&str] is modelled by its characters, restricted to ASCII;
    [as_bytes] is then the list of character codes. *)

Definition str := list ascii.

Definition as_bytes (s : str) : bytes :=
  map (fun c => Z.of_nat (nat_of_ascii c)) s.

Definition ascii_of_byte_z (b : byte) : ascii := ascii_of_nat (Z.to_nat b).

(* ------------------------------------------------------------------ *)
(** ** BINLOG_DUMP command (src/binlog_client.rs) *)

Definition COM_BINLOG_DUMP : Z := 18.

Definition create_binlog_dump_command (server_id : Z) (binlog_filename : str)
    (binlog_position : Z) : outcome bytes :=
  let buffer := [COM_BINLOG_DUMP] in
  let buffer := buffer ++ le_bytes 4 (binlog_position mod 2 ^ 32) in
  let buffer := buffer ++ le_bytes 2 0 in
  let buffer := buffer ++ le_bytes 4 server_id in
  let buffer := buffer ++ as_bytes binlog_filename in
  Ok buffer.

(** The documented layout of the dump request, read back field by field:
    [cmd:u8, pos:u32 LE, flags:u16 LE, server_id:u32 LE, filename to the
    end].  Returns [(server_id, filename, pos)]. *)
Definition decode_binlog_dump_layout (buf : bytes) : option (Z * str * Z) :=
  match buf with
  | cmd :: p0 :: p1 :: p2 :: p3 :: f0 :: f1 :: s0 :: s1 :: s2 :: s3 :: fname =>
      if (cmd =? COM_BINLOG_DUMP) && (le_value [f0; f1] =? 0)
      then Some (le_value [s0; s1; s2; s3], map ascii_of_byte_z fname,
                 le_value [p0; p1; p2; p3])
      else None
  | _ => None
  end.

(* ------------------------------------------------------------------ *)
(** ** SHA-1 (the [sha1] crate's digest, FIPS 180-4) *)

Module Sha1.

Definition mask32 (x : Z) : Z := Z.land x (2 ^ 32 - 1).
Definition rotl (n x : Z) : Z :=
  mask32 (Z.lor (Z.shiftl x n) (Z.shiftr x (32 - n))).

Fixpoint be_words (bs : bytes) : list Z :=
  match bs with
  | a :: b :: c :: d :: r =>
      (a * 2 ^ 24 + b * 2 ^ 16 + c * 2 ^ 8 + d) :: be_words r
  | _ => []
  end.

Definition be_word_bytes (w : Z) : bytes :=
  [Z.shiftr w 24 mod 256; Z.shiftr w 16 mod 256;
   Z.shiftr w 8 mod 256; w mod 256].

Definition pad (msg : bytes) : bytes :=
  let len := Z.of_nat (List.length msg) in
  msg ++ [128] ++ repeat 0 (Z.to_nat ((55 - len) mod 64))
      ++ rev (le_bytes 8 (8 * len)).

(** Message schedule: extend 16 words to 80. *)
Fixpoint schedule (n : nat) (w : list Z) : list Z :=
  match n with
  | O => w
  | S n' =>
      let t := List.length w in
      let x := Z.lxor (Z.lxor (nth (t - 3) w 0) (nth (t - 8) w 0))
                      (Z.lxor (nth (t - 14) w 0) (nth (t - 16) w 0)) in
      schedule n' (w ++ [rotl 1 x])
  end.

Definition f_k (t : nat) (b c d : Z) : Z * Z :=
  if Nat.ltb t 20 then (Z.lor (Z.land b c) (Z.land (Z.lnot b) d), 1518500249)
  else if Nat.ltb t 40 then (Z.lxor b (Z.lxor c d), 1859775393)
  else if Nat.ltb t 60 then
    (Z.lor (Z.lor (Z.land b c) (Z.land b d)) (Z.land c d), 2400959708)
  else (Z.lxor b (Z.lxor c d), 3395469782).

Fixpoint rounds (t : nat) (ws : list Z) (st : Z * Z * Z * Z * Z)
    : Z * Z * Z * Z * Z :=
  match ws with
  | [] => st
  | w :: ws' =>
      let '(a, b, c, d, e) := st in
      let (f, k) := f_k t b c d in
      let temp := mask32 (rotl 5 a + f + e + k + w) in
      rounds (S t) ws' (temp, a, rotl 30 b, c, d)
  end.

Definition compress (h : Z * Z * Z * Z * Z) (block : bytes)
    : Z * Z * Z * Z * Z :=
  let '(h0, h1, h2, h3, h4) := h in
  let '(a, b, c, d, e) := rounds 0 (schedule 64 (be_words block)) h in
  (mask32 (h0 + a), mask32 (h1 + b), mask32 (h2 + c),
   mask32 (h3 + d), mask32 (h4 + e)).

Fixpoint process (fuel : nat) (h : Z * Z * Z * Z * Z) (m : bytes)
    : Z * Z * Z * Z * Z :=
  match fuel with
  | O => h
  | S fuel' =>
      match m with
      | [] => h
      | _ => process fuel' (compress h (firstn 64 m)) (skipn 64 m)
      end
  end.

Definition h_init : Z * Z * Z * Z * Z :=
  (1732584193, 4023233417, 2562383102, 271733878, 3285377520).

Definition digest (msg : bytes) : bytes :=
  let m := pad msg in
  let '(h0, h1, h2, h3, h4) := process (List.length m) h_init m in
  be_word_bytes h0 ++ be_word_bytes h1 ++ be_word_bytes h2
    ++ be_word_bytes h3 ++ be_word_bytes h4.

End Sha1.

(* ------------------------------------------------------------------ *)
(** ** mysql_native_password (src/auth.rs) *)

Definition sha1 (data : bytes) : bytes := Sha1.digest data.

(** [v[i]]: panics out of bounds. *)
Definition index {A} (v : list A) (i : nat) : outcome A :=
  match nth_error v i with
  | Some x => Ok x
  | None => Panic
  end.

(** [for i in 0..n { result.push(a[i] ^ b[i]) }] *)
Fixpoint xor_loop (a b : bytes) (i n : nat) (result : bytes) : outcome bytes :=
  match n with
  | O => Ok result
  | S n' =>
      let* x := index a i in
      let* y := index b i in
      xor_loop a b (S i) n' (result ++ [Z.lxor x y])
  end.

Definition create_auth_response (password : str) (scramble : bytes)
    : outcome bytes :=
  match password with
  | [] => Ok []
  | _ =>
      let stage1 := sha1 (as_bytes password) in
      let stage2 := sha1 stage1 in
      let combined := scramble ++ stage2 in
      let stage3 := sha1 combined in
      xor_loop stage1 stage3 0 20 []
  end.

(* ------------------------------------------------------------------ *)
(** ** Character and string helpers (Rust [str] / [char] methods) *)

Definition char_code (c : ascii) : Z := Z.of_nat (nat_of_ascii c).

Fixpoint str_eqb (a b : str) : bool :=
  match a, b with
  | [], [] => true
  | x :: a', y :: b' => Ascii.eqb x y && str_eqb a' b'
  | _, _ => false
  end.

(** [Ord for str]: lexicographic on the bytes. *)
Fixpoint str_compare (a b : str) : comparison :=
  match a, b with
  | [], [] => Eq
  | [], _ :: _ => Lt
  | _ :: _, [] => Gt
  | x :: a', y :: b' =>
      match Z.compare (char_code x) (char_code y) with
      | Eq => str_compare a' b'
      | c => c
      end
  end.

Fixpoint starts_with (prefix s : str) : bool :=
  match prefix, s with
  | [], _ => true
  | p :: prefix', c :: s' => Ascii.eqb p c && starts_with prefix' s'
  | _ :: _, [] => false
  end.

(** [char::to_uppercase] on ASCII. *)
Definition ascii_upper (c : ascii) : ascii :=
  let n := nat_of_ascii c in
  if (Nat.leb 97 n && Nat.leb n 122)%bool then ascii_of_nat (n - 32) else c.

Definition to_uppercase (s : str) : str := map ascii_upper s.

Definition s_ (s : string) : str := list_ascii_of_string s.

(* ------------------------------------------------------------------ *)
(** ** Events and change records (src/events.rs) *)

Inductive CellValue : Type :=
| Null
| Int8 (v : Z) | Int16 (v : Z) | Int32 (v : Z) | Int64 (v : Z)
| UInt8 (v : Z) | UInt16 (v : Z) | UInt32 (v : Z) | UInt64 (v : Z)
| Float (bits : Z) | Double (bits : Z)
| CString (s : str)
| Bytes (b : bytes)
| DateTime (ts : Z)
| Date (s : str) | Time (s : str) | Decimal (s : str)
| Json (s : str).

Inductive OperationType : Type := Insert | Update | Delete | Ddl.

(** [HashMap<String, CellValue>]: an association list whose [insert]
    replaces the value of an existing key. *)
Definition HashMap := list (str * CellValue).

Definition hm_insert (k : str) (v : CellValue) (m : HashMap) : HashMap :=
  (k, v) :: filter (fun p => negb (str_eqb (fst p) k)) m.

Record ChangeEvent : Type := {
  gtid : option str;
  op : OperationType;
  timestamp : Z;
  database : str;
  table : str;
  before : option HashMap;
  after : option HashMap;
  query : option str
}.

Record TableMetadata : Type := {
  tm_database : str;
  tm_table : str;
  columns : list str;
  column_types : list str;
  primary_key : list str
}.

Record WriteRowsData : Type := {
  wr_table_id : Z; wr_flags : Z; wr_column_count : Z;
  wr_columns_present : bytes;
  wr_rows : list (list CellValue)
}.

Record UpdateRowsData : Type := {
  ur_table_id : Z; ur_flags : Z; ur_column_count : Z;
  ur_columns_present : bytes; ur_columns_changed : bytes;
  ur_rows : list (list CellValue * list CellValue)
}.

Record DeleteRowsData : Type := {
  dr_table_id : Z; dr_flags : Z; dr_column_count : Z;
  dr_columns_present : bytes;
  dr_rows : list (list CellValue)
}.

Record QueryEventData : Type := {
  thread_id : Z;
  exec_time : Z;
  q_database : str;
  q_query : str
}.

(* ------------------------------------------------------------------ *)
(** ** CDC engine conversions (src/cdc_engine.rs)

    [Utc::now()] is the parameter [now]; of [&self] only the
    configuration is read. *)

Inductive SnapshotMode : Type := Initial | SchemaOnly | Never | Incremental.

Record CdcConfig : Type := {
  databases : list str;
  tables : option (list str);
  snapshot_mode : SnapshotMode;
  include_ddl : bool;
  gtid_filter : option str
}.

(** [for (i, col_name) in table.columns.iter().enumerate() {
       if i < row.len() { image.insert(col_name.clone(), row[i].clone()); } }] *)
Fixpoint fill_image (cols : list str) (row : list CellValue) (i : nat)
    (image : HashMap) : HashMap :=
  match cols with
  | [] => image
  | col_name :: cols' =>
      let image := if Nat.ltb i (List.length row)
                   then hm_insert col_name (nth i row Null) image
                   else image in
      fill_image cols' row (S i) image
  end.

Definition write_rows_to_change_event (data : WriteRowsData)
    (tbl : TableMetadata) (now : Z) : list ChangeEvent :=
  map (fun row =>
         let after := fill_image tbl.(columns) row 0 [] in
         {| gtid := None; op := Insert; timestamp := now;
            database := tbl.(tm_database); table := tbl.(tm_table);
            before := None; after := Some after; query := None |})
      data.(wr_rows).

Definition update_rows_to_change_event (data : UpdateRowsData)
    (tbl : TableMetadata) (now : Z) : list ChangeEvent :=
  map (fun '(before_row, after_row) =>
         let before := fill_image tbl.(columns) before_row 0 [] in
         let after := fill_image tbl.(columns) after_row 0 [] in
         {| gtid := None; op := Update; timestamp := now;
            database := tbl.(tm_database); table := tbl.(tm_table);
            before := Some before; after := Some after; query := None |})
      data.(ur_rows).

Definition delete_rows_to_change_event (data : DeleteRowsData)
    (tbl : TableMetadata) (now : Z) : list ChangeEvent :=
  map (fun row =>
         let before := fill_image tbl.(columns) row 0 [] in
         {| gtid := None; op := Delete; timestamp := now;
            database := tbl.(tm_database); table := tbl.(tm_table);
            before := Some before; after := None; query := None |})
      data.(dr_rows).

Definition query_to_change_event (cfg : CdcConfig) (data : QueryEventData)
    (now : Z) : option ChangeEvent :=
  if negb cfg.(include_ddl) then None
  else
    let upper_query := to_uppercase data.(q_query) in
    if starts_with (s_ "CREATE") upper_query
       || starts_with (s_ "ALTER") upper_query
       || starts_with (s_ "DROP") upper_query
    then Some {| gtid := None; op := Ddl; timestamp := now;
                 database := data.(q_database); table := [];
                 before := None; after := None;
                 query := Some data.(q_query) |}
    else None.

(** The row and query events the conversions above apply to, and the
    change records each yields. *)
Inductive SourceEvent : Type :=
| SrcWriteRows (d : WriteRowsData)
| SrcUpdateRows (d : UpdateRowsData)
| SrcDeleteRows (d : DeleteRowsData)
| SrcQuery (d : QueryEventData).

Definition change_records (cfg : CdcConfig) (tbl : TableMetadata) (now : Z)
    (ev : SourceEvent) : list ChangeEvent :=
  match ev with
  | SrcWriteRows d => write_rows_to_change_event d tbl now
  | SrcUpdateRows d => update_rows_to_change_event d tbl now
  | SrcDeleteRows d => delete_rows_to_change_event d tbl now
  | SrcQuery d =>
      match query_to_change_event cfg d now with
      | Some e => [e]
      | None => []
      end
  end.

(* ------------------------------------------------------------------ *)
(** ** Decimal [u64] text ([u64::to_string], [str::parse::<u64>]) *)

Definition digit_char (d : Z) : ascii := ascii_of_nat (Z.to_nat (48 + d)).

(** Decimal digits of [n], least significant first; a [u64] has at most
    20 digits. *)
Fixpoint digits_rev (fuel : nat) (n : Z) : str :=
  match fuel with
  | O => []
  | S fuel' =>
      digit_char (n mod 10)
        :: (if n / 10 =? 0 then [] else digits_rev fuel' (n / 10))
  end.

Definition u64_to_string (n : Z) : str := rev (digits_rev 20 n).

Definition digit_value (c : ascii) : option Z :=
  let n := char_code c in
  if (48 <=? n) && (n <=? 57) then Some (n - 48) else None.

Fixpoint parse_digits (s : str) (acc : Z) : option Z :=
  match s with
  | [] => Some acc
  | c :: s' =>
      match digit_value c with
      | Some d => parse_digits s' (acc * 10 + d)
      | None => None
      end
  end.

(** [u64::from_str]: an optional [+], then at least one decimal digit, no
    overflow.  Checking the bound once at the end is equivalent to the
    library's checked steps, the partial values being non-decreasing. *)
Definition parse_u64 (s : str) : option Z :=
  match s with
  | [] => None
  | c :: rest =>
      if (Ascii.eqb c "+" || Ascii.eqb c "-") && (match rest with [] => true | _ => false end)
      then None
      else
        let digits := if Ascii.eqb c "+" then rest else s in
        match parse_digits digits 0 with
        | Some v => if v <=? U64_MAX then Some v else None
        | None => None
        end
  end.

(** [str::split(sep)]. *)
Fixpoint split_on (sep : ascii) (s : str) : list str :=
  match s with
  | [] => [[]]
  | c :: s' =>
      if Ascii.eqb c sep then [] :: split_on sep s'
      else match split_on sep s' with
           | p :: ps => (c :: p) :: ps
           | [] => [[c]]
           end
  end.

(** [slice.join(sep)]. *)
Fixpoint join (sep : str) (parts : list str) : str :=
  match parts with
  | [] => []
  | [p] => p
  | p :: ps => p ++ sep ++ join sep ps
  end.

(** [char::is_whitespace] on ASCII. *)
Definition is_whitespace (c : ascii) : bool :=
  let n := nat_of_ascii c in
  (Nat.leb 9 n && Nat.leb n 13) || Nat.eqb n 32.

Fixpoint trim_start (s : str) : str :=
  match s with
  | c :: s' => if is_whitespace c then trim_start s' else s
  | [] => []
  end.

Definition trim (s : str) : str := rev (trim_start (rev (trim_start s))).

Definition is_ascii_hexdigit (c : ascii) : bool :=
  let n := nat_of_ascii c in
  (Nat.leb 48 n && Nat.leb n 57) || (Nat.leb 65 n && Nat.leb n 70)
  || (Nat.leb 97 n && Nat.leb n 102).

Definition str_contains (c : ascii) (s : str) : bool := existsb (Ascii.eqb c) s.

(** [chars[a..b]]. *)
Definition substring (chars : str) (a b : nat) : str :=
  firstn (b - a) (skipn a chars).

Definition to_msg (s : str) : string := string_of_list_ascii s.

(* ------------------------------------------------------------------ *)
(** ** BTreeMap<String, V>: an association list sorted by key *)

Definition BTreeMap (V : Type) := list (str * V).

Fixpoint bt_insert {V} (k : str) (v : V) (m : BTreeMap V) : BTreeMap V :=
  match m with
  | [] => [(k, v)]
  | (k', v') :: m' =>
      match str_compare k k' with
      | Lt => (k, v) :: m
      | Eq => (k', v) :: m'
      | Gt => (k', v') :: bt_insert k v m'
      end
  end.

Fixpoint bt_get {V} (k : str) (m : BTreeMap V) : option V :=
  match m with
  | [] => None
  | (k', v') :: m' => if str_eqb k k' then Some v' else bt_get k m'
  end.

(** Writing through [get_mut]. *)
Fixpoint bt_set {V} (k : str) (v : V) (m : BTreeMap V) : BTreeMap V :=
  match m with
  | [] => []
  | (k', v') :: m' =>
      if str_eqb k k' then (k', v) :: m' else (k', v') :: bt_set k v m'
  end.

(* ------------------------------------------------------------------ *)
(** ** GTID model (src/gtid.rs)

    [u64] fields are [Z]; the additions and subtractions the code performs
    on them are checked ([Panic] on overflow, as in a debug build). *)

Definition add_u64 (a b : Z) : outcome Z :=
  if U64_MAX <? a + b then Panic else Ok (a + b).

Definition sub_u64 (a b : Z) : outcome Z :=
  if a - b <? 0 then Panic else Ok (a - b).

Record GtidRange : Type := { start : Z; end_ : Z }.

Definition GtidRange_new (s e : Z) : outcome GtidRange :=
  if e <? s then Err (GtidError "Invalid range: start > end")
  else Ok {| start := s; end_ := e |}.

Definition range_contains (r : GtidRange) (value : Z) : bool :=
  (r.(start) <=? value) && (value <=? r.(end_)).

Definition range_merge (self other : GtidRange) : outcome (option GtidRange) :=
  let* se := add_u64 self.(end_) 1 in
  if se >=? other.(start) then
    let* oe := add_u64 other.(end_) 1 in
    if oe >=? self.(start) then
      Ok (Some {| start := Z.min self.(start) other.(start);
                  end_ := Z.max self.(end_) other.(end_) |})
    else Ok None
  else Ok None.

(** Derived [Ord] of [GtidRange]: by [start], then by [end]. *)
Definition range_leb (a b : GtidRange) : bool :=
  (a.(start) <? b.(start)) || ((a.(start) =? b.(start)) && (a.(end_) <=? b.(end_))).

Fixpoint insert_sorted (r : GtidRange) (rs : list GtidRange) : list GtidRange :=
  match rs with
  | [] => [r]
  | x :: rs' => if range_leb r x then r :: rs else x :: insert_sorted r rs'
  end.

(** [slice::sort]: equal elements of a derived order are identical, so
    any sorting algorithm gives the same list. *)
Definition sort_ranges (rs : list GtidRange) : list GtidRange :=
  fold_right insert_sorted [] rs.

Record UUIDGtidSet : Type := { uuid : str; ranges : list GtidRange }.

(** The merge loop of [UUIDGtidSet::add_gtid]: [pre] are the ranges
    already visited, [Ok None] means no range merged. *)
Fixpoint add_scan (pre rest : list GtidRange) (range : GtidRange)
    : outcome (option (list GtidRange)) :=
  match rest with
  | [] => Ok None
  | r :: rest' =>
      let* m := range_merge r range in
      match m with
      | Some merged =>
          match rest' with
          | [] => Ok (Some (pre ++ [merged]))
          | nxt :: rest'' =>
              let* m2 := range_merge merged nxt in
              match m2 with
              | Some merged_again => Ok (Some (pre ++ merged_again :: rest''))
              | None => Ok (Some (pre ++ merged :: rest'))
              end
          end
      | None => add_scan (pre ++ [r]) rest' range
      end
  end.

Definition uuid_add_gtid (us : UUIDGtidSet) (sequence : Z) : outcome UUIDGtidSet :=
  let* range := GtidRange_new sequence sequence in
  let* found := add_scan [] us.(ranges) range in
  match found with
  | Some rs => Ok {| uuid := us.(uuid); ranges := rs |}
  | None => Ok {| uuid := us.(uuid); ranges := sort_ranges (us.(ranges) ++ [range]) |}
  end.

Definition uuid_contains (us : UUIDGtidSet) (sequence : Z) : bool :=
  existsb (fun r => range_contains r sequence) us.(ranges).

Definition range_to_string (r : GtidRange) : str :=
  if r.(start) =? r.(end_) then u64_to_string r.(start)
  else u64_to_string r.(start) ++ ["-"%char] ++ u64_to_string r.(end_).

Definition uuid_to_string (us : UUIDGtidSet) : str :=
  join [","%char] (map range_to_string us.(ranges)).

Record GtidSet : Type := { sets : BTreeMap UUIDGtidSet }.

Definition GtidSet_new : GtidSet := {| sets := [] |}.

(** UUID-start heuristic: within the next ten characters, a [':'] after
    more than eight hex digits or dashes. *)
Fixpoint uuid_window (l : str) (hex_count : Z) : bool :=
  match l with
  | [] => false
  | c :: l' =>
      if is_ascii_hexdigit c || Ascii.eqb c "-" then uuid_window l' (hex_count + 1)
      else if Ascii.eqb c ":" then 8 <? hex_count
      else false
  end.

Definition is_uuid_start (chars : str) (pos : nat) : bool :=
  if Nat.leb (List.length chars) (pos + 3) then false
  else uuid_window (firstn 10 (skipn pos chars)) 0.

(** [while i < chars.len() && chars[i] != stop { i += 1; }], run on
    [l = chars[i..]]. *)
Fixpoint scan_until (stop : ascii) (l : str) (i : nat) : nat :=
  match l with
  | [] => i
  | c :: l' => if Ascii.eqb c stop then i else scan_until stop l' (S i)
  end.

(** The range scan of [GtidSet::parse], run on [l = chars[i..]]:
    [while i < len && chars[i] != ',' || (i > 0 && i + 1 < len
       && is_uuid_start(&chars, i + 1)) {
       if chars[i] == ',' && is_uuid_start(&chars, i + 1) { break; }
       i += 1; }]
    (at [i >= len] the second disjunct is false as well). *)
Fixpoint scan_ranges (chars : str) (l : str) (i : nat) : nat :=
  match l with
  | [] => i
  | c :: l' =>
      if negb (Ascii.eqb c ",")
         || (Nat.ltb 0 i && Nat.ltb (S i) (List.length chars)
             && is_uuid_start chars (S i))
      then
        if Ascii.eqb c "," && is_uuid_start chars (S i) then i
        else scan_ranges chars l' (S i)
      else i
  end.

(** One comma-separated part of a range string. *)
Definition parse_range_part (us : UUIDGtidSet) (range_part : str)
    : outcome UUIDGtidSet :=
  let range_part := trim range_part in
  match range_part with
  | [] => Ok us
  | c0 :: _ =>
      if str_contains "-" range_part && negb (Ascii.eqb c0 "-") then
        match split_on "-" range_part with
        | [p0; p1] =>
            let* s := match parse_u64 p0 with
                      | Some v => Ok v
                      | None => Err (GtidError (String.append "Invalid range: " (to_msg range_part)))
                      end in
            let* e := match parse_u64 p1 with
                      | Some v => Ok v
                      | None => Err (GtidError (String.append "Invalid range: " (to_msg range_part)))
                      end in
            let* r := GtidRange_new s e in
            Ok {| uuid := us.(uuid); ranges := us.(ranges) ++ [r] |}
        | _ => Ok us
        end
      else
        let* sq := match parse_u64 range_part with
                   | Some v => Ok v
                   | None => Err (GtidError (String.append "Invalid sequence: " (to_msg range_part)))
                   end in
        uuid_add_gtid us sq
  end.

Fixpoint parse_range_parts (us : UUIDGtidSet) (parts : list str)
    : outcome UUIDGtidSet :=
  match parts with
  | [] => Ok us
  | p :: ps => let* us := parse_range_part us p in parse_range_parts us ps
  end.

(** The outer [while i < chars.len()] loop of [GtidSet::parse].  Every
    iteration that does not exit moves [i] forward, so [chars.len() + 1]
    rounds of [fuel] always suffice. *)
Fixpoint parse_loop (fuel : nat) (chars : str) (i : nat) (gtid_set : GtidSet)
    : outcome GtidSet :=
  match fuel with
  | O => Ok gtid_set
  | S fuel' =>
      if Nat.ltb i (List.length chars) then
        let uuid_start := i in
        let i := scan_until ":" (skipn i chars) i in
        if Nat.leb (List.length chars) i then Ok gtid_set
        else
          let u := substring chars uuid_start i in
          let i := S i in
          let ranges_start := i in
          let i := scan_ranges chars (skipn i chars) i in
          let ranges_str := substring chars ranges_start i in
          let* uuid_gtid_set :=
            parse_range_parts {| uuid := u; ranges := [] |} (split_on "," ranges_str) in
          let gtid_set :=
            {| sets := bt_insert uuid_gtid_set.(uuid) uuid_gtid_set gtid_set.(sets) |} in
          let i := if Nat.ltb i (List.length chars) && Ascii.eqb (nth i chars " "%char) ","
                   then S i else i in
          parse_loop fuel' chars i gtid_set
      else Ok gtid_set
  end.

Definition parse (gtid_str : str) : outcome GtidSet :=
  match gtid_str with
  | [] => Ok GtidSet_new
  | _ =>
      if str_eqb gtid_str (s_ "NULL") then Ok GtidSet_new
      else parse_loop (S (List.length gtid_str)) gtid_str 0 GtidSet_new
  end.

Definition contains (gs : GtidSet) (gtid_s : str) : bool :=
  match split_on ":" gtid_s with
  | [u; sq] =>
      match parse_u64 sq with
      | Some sequence =>
          match bt_get u gs.(sets) with
          | Some us => uuid_contains us sequence
          | None => false
          end
      | None => false
      end
  | _ => false
  end.

(** [for range in &result_set.ranges { ... }] for one [other_range]. *)
Fixpoint subtract_range (other_range : GtidRange) (rs new_ranges : list GtidRange)
    : outcome (list GtidRange) :=
  match rs with
  | [] => Ok new_ranges
  | range :: rs' =>
      if (range.(end_) <? other_range.(start)) || (other_range.(end_) <? range.(start))
      then subtract_range other_range rs' (new_ranges ++ [range])
      else
        let* new_ranges :=
          if range.(start) <? other_range.(start) then
            let* e := sub_u64 other_range.(start) 1 in
            let* r := unwrap (GtidRange_new range.(start) e) in
            Ok (new_ranges ++ [r])
          else Ok new_ranges in
        let* new_ranges :=
          if other_range.(end_) <? range.(end_) then
            let* s := add_u64 other_range.(end_) 1 in
            let* r := unwrap (GtidRange_new s range.(end_)) in
            Ok (new_ranges ++ [r])
          else Ok new_ranges in
        subtract_range other_range rs' new_ranges
  end.

Fixpoint subtract_ranges (others rs : list GtidRange) : outcome (list GtidRange) :=
  match others with
  | [] => Ok rs
  | other_range :: others' =>
      let* rs := subtract_range other_range rs [] in
      subtract_ranges others' rs
  end.

Fixpoint subtract_sets (other result : BTreeMap UUIDGtidSet)
    : outcome (BTreeMap UUIDGtidSet) :=
  match other with
  | [] => Ok result
  | (u, other_set) :: other' =>
      let* result :=
        match bt_get u result with
        | Some result_set =>
            let* rs := subtract_ranges other_set.(ranges) result_set.(ranges) in
            Ok (bt_set u {| uuid := result_set.(uuid); ranges := rs |} result)
        | None => Ok result
        end in
      subtract_sets other' result
  end.

Definition subtract (self other : GtidSet) : outcome GtidSet :=
  let* s := subtract_sets other.(sets) self.(sets) in
  Ok {| sets := s |}.

Definition to_string (gs : GtidSet) : str :=
  match gs.(sets) with
  | [] => []
  | _ =>
      let parts :=
        flat_map (fun p => let ranges_str := uuid_to_string (snd p) in
                           match ranges_str with
                           | [] => []
                           | _ => [fst p ++ [":"%char] ++ ranges_str]
                           end) gs.(sets) in
      join [","%char] parts
  end.

(** Every field of every range of the set is a [u64]. *)
Definition range_u64 (r : GtidRange) : Prop := is_u64 r.(start) /\ is_u64 r.(end_).

Definition gtid_set_u64 (g : GtidSet) : Prop :=
  Forall (fun p => Forall range_u64 (snd p).(ranges)) g.(sets).

(* ------------------------------------------------------------------ *)
(** ** Well-formed GTID text *)

(** An ASCII decimal digit. *)
Definition is_digit (c : ascii) : bool :=
  (48 <=? char_code c) && (char_code c <=? 57).

(** A range whose bounds are u64 values with [start <= end]. *)
Definition range_ok (r : GtidRange) : Prop :=
  0 <= r.(start) /\ r.(start) <= r.(end_) /\ r.(end_) <= U64_MAX.

(** One entry [uuid:range] of a GTID text, written as [to_string] writes it. *)
Definition entry_text (e : str * GtidRange) : str :=
  fst e ++ [":"%char] ++ range_to_string (snd e).

Definition entries_text (es : list (str * GtidRange)) : str :=
  join [","%char] (map entry_text es).

(** The map entry an entry stands for: its UUID with that one range. *)
Definition entry_set (e : str * GtidRange) : str * UUIDGtidSet :=
  (fst e, {| uuid := fst e; ranges := [snd e] |}).

Definition entry_ok (e : str * GtidRange) : Prop :=
  ~ In ":"%char (fst e) /\ range_ok (snd e).

(** UUIDs strictly ascending, in the order of [str_compare]. *)
Fixpoint keys_ascending (es : list (str * GtidRange)) : bool :=
  match es with
  | [] => true
  | e :: es' =>
      forallb (fun e' => match str_compare (fst e) (fst e') with Lt => true | _ => false end) es'
      && keys_ascending es'
  end.

(** One insertion of [GtidSet::parse] for a single-range entry. *)
Definition entry_ins (m : BTreeMap UUIDGtidSet) (e : str * GtidRange) :=
  bt_insert (fst (entry_set e)) (snd (entry_set e)) m.


(* ------------------------------------------------------------------ *)
(** ** Predicates on results, and sample data *)

(** The per-operation shape of a change record. *)
Definition shape_ok (ev : ChangeEvent) : Prop :=
  match ev.(op) with
  | Insert => ev.(before) = None /\ ev.(after) <> None
  | Delete => ev.(before) <> None /\ ev.(after) = None
  | Update => ev.(before) <> None /\ ev.(after) <> None
  | Ddl => ev.(query) <> None /\ ev.(table) = []
           /\ ev.(before) = None /\ ev.(after) = None
  end.

Definition ddl_config : CdcConfig :=
  {| databases := [s_ "test"]; tables := None; snapshot_mode := Initial;
     include_ddl := true; gtid_filter := None |}.

Definition uuid_a : str := s_ "550e8400-e29b-41d4-a716-446655440000".

Definition rs_mem (rs : list GtidRange) (n : Z) : bool :=
  existsb (fun r => range_contains r n) rs.

(** Membership of sequence [n] under [uuid] in a map. *)
Definition mem (m : BTreeMap UUIDGtidSet) (u : str) (n : Z) : bool :=
  match bt_get u m with
  | Some us => uuid_contains us n
  | None => false
  end.

Definition uuid_b : str := s_ "650e8400-e29b-41d4-a716-446655440000".

Definition gtid_A : GtidSet :=
  {| sets := [(uuid_a, {| uuid := uuid_a; ranges := [{| start := 1; end_ := 100 |}] |});
              (uuid_b, {| uuid := uuid_b; ranges := [{| start := 1; end_ := 5 |}] |})] |}.

Definition gtid_B : GtidSet :=
  {| sets := [(uuid_a, {| uuid := uuid_a; ranges := [{| start := 40; end_ := 60 |}] |})] |}.

Definition gtid_A_minus_B : GtidSet :=
  {| sets := [(uuid_a, {| uuid := uuid_a;
                         ranges := [{| start := 1; end_ := 39 |};
                                    {| start := 61; end_ := 100 |}] |});
              (uuid_b, {| uuid := uuid_b; ranges := [{| start := 1; end_ := 5 |}] |})] |}.

Definition roundtrip_entries : list (str * GtidRange) :=
  [(uuid_a, {| start := 1; end_ := 100 |}); (uuid_b, {| start := 7; end_ := 7 |})].


(* ------------------------------------------------------------------ *)
(** ** UTF-8 decoding ([String::from_utf8], [String::from_utf8_lossy])

    A [String] decoded from wire bytes is kept as its UTF-8 bytes. *)

Definition byte_in (lo hi b : Z) : bool := (lo <=? b) && (b <=? hi).

(** What the decoder finds at the head of a byte string: a well-formed
    character of [n] bytes, an ill-formed sequence whose maximal valid
    prefix has [n] bytes, or a valid prefix of [n] bytes cut by the end of
    the input. *)
Inductive utf8_chunk : Type :=
| Valid (n : nat)
| Invalid (n : nat)
| Incomplete (n : nat).

(** The well-formed byte sequences of the Unicode standard (Table 3-7). *)
Definition utf8_next (bs : bytes) : utf8_chunk :=
  match bs with
  | [] => Valid 0
  | b0 :: rest =>
      if b0 <? 128 then Valid 1
      else if byte_in 194 223 b0 then
        match rest with
        | b1 :: _ => if byte_in 128 191 b1 then Valid 2 else Invalid 1
        | [] => Incomplete 1
        end
      else if byte_in 224 239 b0 then
        let lo := if b0 =? 224 then 160 else 128 in
        let hi := if b0 =? 237 then 159 else 191 in
        match rest with
        | b1 :: rest1 =>
            if byte_in lo hi b1 then
              match rest1 with
              | b2 :: _ => if byte_in 128 191 b2 then Valid 3 else Invalid 2
              | [] => Incomplete 2
              end
            else Invalid 1
        | [] => Incomplete 1
        end
      else if byte_in 240 244 b0 then
        let lo := if b0 =? 240 then 144 else 128 in
        let hi := if b0 =? 244 then 143 else 191 in
        match rest with
        | b1 :: rest1 =>
            if byte_in lo hi b1 then
              match rest1 with
              | b2 :: rest2 =>
                  if byte_in 128 191 b2 then
                    match rest2 with
                    | b3 :: _ => if byte_in 128 191 b3 then Valid 4 else Invalid 3
                    | [] => Incomplete 3
                    end
                  else Invalid 2
              | [] => Incomplete 2
              end
            else Invalid 1
        | [] => Incomplete 1
        end
      else Invalid 1
  end.

(** U+FFFD REPLACEMENT CHARACTER in UTF-8. *)
Definition REPLACEMENT : bytes := [239; 191; 189].

(** Each step consumes at least one byte, so [fuel = length bs] suffices. *)
Fixpoint lossy_go (fuel : nat) (bs : bytes) : bytes :=
  match fuel with
  | O => []
  | S fuel' =>
      match bs with
      | [] => []
      | _ =>
          match utf8_next bs with
          | Valid n => firstn n bs ++ lossy_go fuel' (skipn n bs)
          | Invalid n | Incomplete n => REPLACEMENT ++ lossy_go fuel' (skipn n bs)
          end
      end
  end.

Definition from_utf8_lossy (bs : bytes) : bytes := lossy_go (List.length bs) bs.

(** [Utf8Error]: [valid_up_to] and [error_len] ([None] for a sequence cut
    by the end of the input). *)
Fixpoint utf8_error_go (fuel : nat) (bs : bytes) (i : nat) : option (nat * option nat) :=
  match fuel with
  | O => None
  | S fuel' =>
      match bs with
      | [] => None
      | _ =>
          match utf8_next bs with
          | Valid n => utf8_error_go fuel' (skipn n bs) (i + n)
          | Invalid n => Some (i, Some n)
          | Incomplete _ => Some (i, None)
          end
      end
  end.

Definition nat_to_msg (n : nat) : string := to_msg (u64_to_string (Z.of_nat n)).

(** [Display for Utf8Error]. *)
Definition utf8_error_msg (e : nat * option nat) : string :=
  match snd e with
  | Some len => String.append "invalid utf-8 sequence of "
                  (String.append (nat_to_msg len)
                    (String.append " bytes from index " (nat_to_msg (fst e))))
  | None => String.append "incomplete utf-8 byte sequence from index " (nat_to_msg (fst e))
  end.

(** [String::from_utf8]: [inl] carries the [Utf8Error]. *)
Definition from_utf8 (bs : bytes) : (nat * option nat) + bytes :=
  match utf8_error_go (List.length bs) bs 0 with
  | Some e => inl e
  | None => inr bs
  end.

(* ------------------------------------------------------------------ *)
(** ** Binlog event parsing (src/binlog.rs, [BinlogParser])

    As for the packet channel, the [io::Cursor] is the list of bytes not
    yet read.  A failed [read_exact] leaves the cursor at the end of its
    buffer, as the standard library's [Cursor] does. *)

Definition BINLOG_MAGIC : bytes := [254; 98; 105; 110].
Definition EVENT_HEADER_SIZE : nat := 19.

Fixpoint bytes_eqb (a b : bytes) : bool :=
  match a, b with
  | [], [] => true
  | x :: a', y :: b' => (x =? y) && bytes_eqb a' b'
  | _, _ => false
  end.

Definition verify_magic (data : bytes) : outcome unit :=
  if Nat.ltb (List.length data) 4 then Err (BinlogParseError "Invalid binlog: too short")
  else if bytes_eqb (firstn 4 data) BINLOG_MAGIC then Ok tt
  else Err (BinlogParseError "Invalid binlog magic number").

Inductive EventType : Type :=
| Unknown | RotateEvent | QueryEvent | TableMapEvent | WriteRowsEvent
| UpdateRowsEvent | DeleteRowsEvent | GtidEvent | AnonymousGtidEvent
| RowsQueryEvent | TransactionPayloadEvent.

Definition EventType_from_u8 (v : Z) : EventType :=
  if v =? 4 then RotateEvent
  else if v =? 2 then QueryEvent
  else if v =? 19 then TableMapEvent
  else if v =? 30 then WriteRowsEvent
  else if v =? 31 then UpdateRowsEvent
  else if v =? 32 then DeleteRowsEvent
  else if v =? 33 then GtidEvent
  else if v =? 34 then AnonymousGtidEvent
  else if v =? 36 then RowsQueryEvent
  else if v =? 38 then TransactionPayloadEvent
  else Unknown.

Record EventHeader : Type := {
  h_timestamp : Z; event_type : EventType; server_id : Z;
  event_length : Z; next_pos : Z; h_flags : Z
}.

Definition parse_header (data : bytes) : outcome (EventHeader * nat) :=
  if Nat.ltb (List.length data) EVENT_HEADER_SIZE
  then Err (BinlogParseError "Invalid event header: too short")
  else
    let cursor := data in
    let* p := read_u32_le cursor in let (ts, cursor) := p in
    let* p := read_u8 cursor in let (ty, cursor) := p in
    let* p := read_u32_le cursor in let (sid, cursor) := p in
    let* p := read_u32_le cursor in let (len, cursor) := p in
    let* p := read_u32_le cursor in let (np, cursor) := p in
    let* p := read_u16_le cursor in let (fl, cursor) := p in
    Ok ({| h_timestamp := ts; event_type := EventType_from_u8 ty; server_id := sid;
           event_length := len; next_pos := np; h_flags := fl |},
        (List.length data - List.length cursor)%nat).

(** [read_exact] into [vec![0u8; n]], [n] a [usize]. *)
Definition read_exact_z (n : Z) (cur : bytes) : outcome (bytes * bytes) :=
  if Z.of_nat (List.length cur) <? n then Err (IoError eof_msg)
  else Ok (firstn (Z.to_nat n) cur, skipn (Z.to_nat n) cur).

(** [cursor.read_u48::<LittleEndian>().unwrap_or(0)]. *)
Definition read_u48_or_zero (cur : bytes) : Z * bytes :=
  match read_le 6 cur with
  | Ok p => p
  | _ => (0, [])
  end.

(** [(column_count as usize + 7) / 8], overflow-checked. *)
Definition bitmap_bytes_of (column_count : Z) : outcome Z :=
  let* s := add_u64 column_count 7 in Ok (s / 8).

Record TableMapData : Type := {
  table_id : Z;
  map_database : bytes;
  map_table : bytes;
  map_column_types : bytes;
  column_meta : list bytes;
  nullable_bitmap : bytes
}.

Definition parse_table_map_event (data : bytes) : outcome TableMapData :=
  if Nat.ltb (List.length data) 8 then Err (BinlogParseError "Invalid table map event")
  else
    let (tid, cursor) := read_u48_or_zero data in
    let* p := read_u16_le cursor in let (_flags, cursor) := p in
    let* p := read_u8 cursor in let (db_len, cursor) := p in
    let* p := read_exact_z db_len cursor in let (db_bytes, cursor) := p in
    let database := from_utf8_lossy db_bytes in
    let* p := read_u8 cursor in let (tbl_len, cursor) := p in
    let* p := read_exact_z tbl_len cursor in let (tbl_bytes, cursor) := p in
    let table := from_utf8_lossy tbl_bytes in
    let* p := read_lcb cursor in let (column_count, cursor) := p in
    let* p := read_exact_z column_count cursor in let (column_types, cursor) := p in
    let* p := read_lcb cursor in let (metadata_length, cursor) := p in
    let column_meta := repeat [] (Z.to_nat column_count) in
    let* p := read_exact_z metadata_length cursor in let (_metadata, cursor) := p in
    let* nullable_count := bitmap_bytes_of column_count in
    let* p := read_exact_z nullable_count cursor in let (nullable_bitmap, cursor) := p in
    Ok {| table_id := tid; map_database := database; map_table := table;
          map_column_types := column_types; column_meta := column_meta;
          nullable_bitmap := nullable_bitmap |}.

(** One column of [parse_row_data]'s loop. *)
Definition parse_cell (cursor : bytes) (row : list CellValue)
    : list CellValue * bytes :=
  match read_u8 cursor with
  | Ok (byte, cursor) =>
      if byte =? 0 then (row ++ [Null], cursor)
      else if byte =? 1 then
        match read_u8 cursor with
        | Ok (v, cursor) => (row ++ [UInt8 v], cursor)
        | _ => (row, [])
        end
      else if byte =? 2 then
        match read_u16_le cursor with
        | Ok (v, cursor) => (row ++ [UInt16 v], cursor)
        | _ => (row, [])
        end
      else if byte =? 4 then
        match read_u32_le cursor with
        | Ok (v, cursor) => (row ++ [UInt32 v], cursor)
        | _ => (row, [])
        end
      else (row ++ [Bytes [byte]], cursor)
  | _ => (row, [])
  end.

(** [for col_idx in 0..column_count]: [k] columns are left. *)
Fixpoint row_loop (k col_idx : nat) (present_bitmap : bytes) (cursor : bytes)
    (row : list CellValue) : list CellValue * bytes :=
  match k with
  | O => (row, cursor)
  | S k' =>
      let byte_idx := Nat.div col_idx 8 in
      let bit_idx := Nat.modulo col_idx 8 in
      if Nat.leb (List.length present_bitmap) byte_idx then
        row_loop k' (S col_idx) present_bitmap cursor (row ++ [Null])
      else
        let is_present :=
          negb (Z.land (nth byte_idx present_bitmap 0) (Z.shiftl 1 (Z.of_nat bit_idx)) =? 0) in
        if negb is_present then
          row_loop k' (S col_idx) present_bitmap cursor (row ++ [Null])
        else
          let (row, cursor) := parse_cell cursor row in
          row_loop k' (S col_idx) present_bitmap cursor row
  end.

(** Always [Ok]: the result has at most one row. *)
Definition parse_row_data (cursor : bytes) (column_count : nat) (present_bitmap : bytes)
    : outcome (list (list CellValue)) * bytes :=
  let (row, cursor) := row_loop column_count 0 present_bitmap cursor [] in
  (Ok (match row with [] => [] | _ => [row] end), cursor).

Definition parse_write_rows_event (data : bytes) : outcome WriteRowsData :=
  if Nat.ltb (List.length data) 6 then Err (BinlogParseError "Invalid write rows event")
  else
    let (tid, cursor) := read_u48_or_zero data in
    let* p := read_u16_le cursor in let (flags, cursor) := p in
    let* p := read_lcb cursor in let (column_count, cursor) := p in
    let* bitmap_bytes := bitmap_bytes_of column_count in
    let* p := read_exact_z bitmap_bytes cursor in let (columns_present, cursor) := p in
    let (rows, _cursor) := parse_row_data cursor (Z.to_nat column_count) columns_present in
    let* rows := rows in
    Ok {| wr_table_id := tid; wr_flags := flags; wr_column_count := column_count;
          wr_columns_present := columns_present; wr_rows := rows |}.

Definition parse_delete_rows_event (data : bytes) : outcome DeleteRowsData :=
  if Nat.ltb (List.length data) 6 then Err (BinlogParseError "Invalid delete rows event")
  else
    let (tid, cursor) := read_u48_or_zero data in
    let* p := read_u16_le cursor in let (flags, cursor) := p in
    let* p := read_lcb cursor in let (column_count, cursor) := p in
    let* bitmap_bytes := bitmap_bytes_of column_count in
    let* p := read_exact_z bitmap_bytes cursor in let (columns_present, cursor) := p in
    let (rows, _cursor) := parse_row_data cursor (Z.to_nat column_count) columns_present in
    let* rows := rows in
    Ok {| dr_table_id := tid; dr_flags := flags; dr_column_count := column_count;
          dr_columns_present := columns_present; dr_rows := rows |}.

(** The [while (cursor.position() as usize) < data.len()] loop of
    [parse_update_rows_event], run for at most [fuel] rounds: [None] when
    it has not exited by then. *)
Fixpoint update_rows_loop (fuel : nat) (column_count : nat)
    (columns_present columns_changed : bytes) (cursor : bytes)
    (rows : list (list CellValue * list CellValue))
    : option (outcome (list (list CellValue * list CellValue))) :=
  match fuel with
  | O => None
  | S fuel' =>
      match cursor with
      | [] => Some (Ok rows)
      | _ =>
          let (before, cursor) := parse_row_data cursor column_count columns_present in
          match before with
          | Ok before =>
              match before with
              | [] => Some (Ok rows)
              | b0 :: _ =>
                  let (after, cursor) := parse_row_data cursor column_count columns_changed in
                  match after with
                  | Ok after =>
                      let rows := match after with
                                  | [] => rows
                                  | a0 :: _ => rows ++ [(b0, a0)]
                                  end in
                      update_rows_loop fuel' column_count columns_present columns_changed
                        cursor rows
                  | Err e => Some (Err e)
                  | Panic => Some Panic
                  end
              end
          | Err e => Some (Err e)
          | Panic => Some Panic
          end
      end
  end.

Definition parse_update_rows_event (fuel : nat) (data : bytes)
    : option (outcome UpdateRowsData) :=
  if Nat.ltb (List.length data) 6
  then Some (Err (BinlogParseError "Invalid update rows event"))
  else
    let (tid, cursor) := read_u48_or_zero data in
    match
      (let* p := read_u16_le cursor in let (flags, cursor) := p in
       let* p := read_lcb cursor in let (column_count, cursor) := p in
       let* bitmap_bytes := bitmap_bytes_of column_count in
       let* p := read_exact_z bitmap_bytes cursor in let (columns_present, cursor) := p in
       let* p := read_exact_z bitmap_bytes cursor in let (columns_changed, cursor) := p in
       Ok (flags, column_count, columns_present, columns_changed, cursor))
    with
    | Ok (flags, column_count, columns_present, columns_changed, cursor) =>
        match update_rows_loop fuel (Z.to_nat column_count) columns_present
                columns_changed cursor [] with
        | Some (Ok rows) =>
            Some (Ok {| ur_table_id := tid; ur_flags := flags;
                        ur_column_count := column_count;
                        ur_columns_present := columns_present;
                        ur_columns_changed := columns_changed; ur_rows := rows |})
        | Some (Err e) => Some (Err e)
        | Some Panic => Some Panic
        | None => None
        end
    | Err e => Some (Err e)
    | Panic => Some Panic
    end.

(** [QueryEventData] as [parse_query_event] builds it, its strings kept as
    UTF-8 bytes. *)
Record ParsedQueryEvent : Type := {
  pq_thread_id : Z; pq_exec_time : Z; pq_database : bytes; pq_query : bytes
}.

(** [cursor.set_position(cursor.position() + status_len)] then reads; a
    position past the end reads nothing.  [cursor.read_u8().ok()] skips one
    byte if there is one. *)
Definition parse_query_event (data : bytes) : outcome ParsedQueryEvent :=
  if Nat.ltb (List.length data) 13 then Err (BinlogParseError "Invalid query event")
  else
    let cursor := data in
    let* p := read_u32_le cursor in let (thread_id, cursor) := p in
    let* p := read_u32_le cursor in let (exec_time, cursor) := p in
    let* p := read_u8 cursor in let (db_len, cursor) := p in
    let* p := read_u16_le cursor in let (_error_code, cursor) := p in
    let* p := read_u16_le cursor in let (status_len, cursor) := p in
    let cursor := skipn (Z.to_nat status_len) cursor in
    let* p := (if 0 <? db_len then read_exact_z db_len cursor
               else Ok (repeat 0 (Z.to_nat db_len), cursor)) in
    let (db_bytes, cursor) := p in
    let database := from_utf8_lossy db_bytes in
    let cursor := match read_u8 cursor with Ok (_, c) => c | _ => [] end in
    let query := from_utf8_lossy cursor in
    Ok {| pq_thread_id := thread_id; pq_exec_time := exec_time;
          pq_database := database; pq_query := query |}.

Record RotateEventData : Type := { next_binlog_name : bytes; position : Z }.

Definition parse_rotate_event (data : bytes) : outcome RotateEventData :=
  if Nat.ltb (List.length data) 8 then Err (BinlogParseError "Invalid rotate event")
  else
    let* p := read_u64_le data in let (position, cursor) := p in
    Ok {| next_binlog_name := from_utf8_lossy cursor; position := position |}.

(** [{:02x}]. *)
Definition hex_digit (d : Z) : ascii :=
  if d <? 10 then ascii_of_nat (Z.to_nat (48 + d)) else ascii_of_nat (Z.to_nat (87 + d)).

Definition hex2 (b : byte) : str := [hex_digit (b / 16); hex_digit (b mod 16)].

Definition format_uuid (bs : bytes) : str :=
  let h := fun i => hex2 (nth i bs 0) in
  h 0%nat ++ h 1%nat ++ h 2%nat ++ h 3%nat ++ ["-"%char]
  ++ h 4%nat ++ h 5%nat ++ ["-"%char] ++ h 6%nat ++ h 7%nat ++ ["-"%char]
  ++ h 8%nat ++ h 9%nat ++ ["-"%char]
  ++ h 10%nat ++ h 11%nat ++ h 12%nat ++ h 13%nat ++ h 14%nat ++ h 15%nat.

Record GtidEventData : Type := { ge_gtid : str; committed : bool }.

Definition parse_gtid_event (data : bytes) : outcome GtidEventData :=
  if Nat.ltb (List.length data) 42 then Err (BinlogParseError "Invalid GTID event")
  else
    let* p := read_u8 data in let (_flags, cursor) := p in
    let* p := read_exact 16 cursor in let (uuid_bytes, cursor) := p in
    let u := format_uuid uuid_bytes in
    let* p := read_u64_le cursor in let (sequence, cursor) := p in
    let g := u ++ [":"%char] ++ u64_to_string sequence in
    Ok {| ge_gtid := g; committed := (nth 0 data 0 =? 0) |}.

(* ------------------------------------------------------------------ *)
(** ** Packet writing and the greeting packet (src/protocol.rs) *)

(** [WriteBytesExt::write_u24::<LittleEndian>]: byteorder asserts that the
    value fits in three bytes. *)
Definition write_u24_le (n : Z) : outcome bytes :=
  if 2 ^ 24 <=? n then Panic else Ok (le_bytes 3 n).

(** [PacketChannel::write_packet]: the bytes sent on the stream (header,
    then body); the stream's own I/O errors are not modelled. *)
Definition write_packet (data : bytes) (sequence : Z) : outcome bytes :=
  let length := Z.of_nat (List.length data) mod 2 ^ 32 in
  let* header := write_u24_le length in
  let header := header ++ [sequence] in
  Ok (header ++ data).

Record GreetingPacket : Type := {
  protocol_version : Z;
  server_version : bytes;
  g_thread_id : Z;
  scramble : bytes;
  server_capabilities : Z;
  server_collation : Z;
  server_status : Z
}.

(** [.map_err(|e| CdcError::ProtocolError(format!("Failed to read ...: {}", e)))]. *)
Definition read_ctx {A} (what : string) (m : outcome A) : outcome A :=
  map_err (fun e => ProtocolError (String.append "Failed to read "
             (String.append what (String.append ": " (io_message e))))) m.

(** The [loop] of [read_null_terminated_string]. *)
Fixpoint nul_loop (cur acc : bytes) : outcome (bytes * bytes) :=
  match cur with
  | [] => read_ctx "string byte" (Err (IoError eof_msg))
  | byte :: cur' => if byte =? 0 then Ok (acc, cur') else nul_loop cur' (acc ++ [byte])
  end.

Definition read_null_terminated_string (cur : bytes) : outcome (bytes * bytes) :=
  let* p := nul_loop cur [] in
  let (bs, cur) := p in
  match from_utf8 bs with
  | inr s => Ok (s, cur)
  | inl e => Err (ProtocolError (String.append "Invalid UTF-8 in string: " (utf8_error_msg e)))
  end.

Definition GreetingPacket_parse (data : bytes) : outcome GreetingPacket :=
  let cursor := data in
  let* p := read_ctx "protocol version" (read_u8 cursor) in
  let (protocol_version, cursor) := p in
  let* p := read_null_terminated_string cursor in
  let (server_version, cursor) := p in
  let* p := read_ctx "thread ID" (read_u32_le cursor) in
  let (thread_id, cursor) := p in
  let* p := read_ctx "scramble part 1" (read_exact 8 cursor) in
  let (scramble_part1, cursor) := p in
  let* p := read_ctx "filler" (read_u8 cursor) in
  let (_, cursor) := p in
  let* p := read_ctx "capabilities" (read_u16_le cursor) in
  let (capabilities_lower, cursor) := p in
  let* p := read_ctx "collation" (read_u8 cursor) in
  let (server_collation, cursor) := p in
  let* p := read_ctx "status" (read_u16_le cursor) in
  let (server_status, cursor) := p in
  let* p := read_ctx "capabilities upper" (read_u16_le cursor) in
  let (capabilities_upper, cursor) := p in
  let server_capabilities := Z.lor (Z.shiftl capabilities_upper 16) capabilities_lower in
  let* p := read_ctx "auth data length" (read_u8 cursor) in
  let (auth_data_len, cursor) := p in
  let* p := read_ctx "reserved" (read_exact 10 cursor) in
  let (_reserved, cursor) := p in
  let scramble_len := Z.to_nat (Z.max 13 (Z.max 0 (auth_data_len - 8))) in
  let* p := read_ctx "scramble part 2" (read_exact scramble_len cursor) in
  let (scramble_part2, _cursor) := p in
  let scramble := scramble_part1 ++ firstn (List.length scramble_part2 - 1) scramble_part2 in
  Ok {| protocol_version := protocol_version; server_version := server_version;
        g_thread_id := thread_id; scramble := scramble;
        server_capabilities := server_capabilities;
        server_collation := server_collation; server_status := server_status |}.

(* ------------------------------------------------------------------ *)
(** ** Handshake response (src/auth.rs, [create_handshake_response]) *)

Definition LONG_PASSWORD : Z := 1.
Definition LONG_FLAG : Z := 4.
Definition CONNECT_WITH_DB : Z := 8.
Definition PROTOCOL_41 : Z := 512.
Definition SECURE_CONNECTION : Z := 32768.
Definition MULTI_STATEMENTS : Z := 2 ^ 16.
Definition MULTI_RESULTS : Z := 2 ^ 17.
Definition PLUGIN_AUTH : Z := 2 ^ 19.

Definition create_handshake_response (username password : str) (database : option str)
    (scramble : bytes) (collation : Z) : outcome bytes :=
  let capabilities :=
    Z.lor (Z.lor (Z.lor (Z.lor (Z.lor (Z.lor LONG_PASSWORD LONG_FLAG) PROTOCOL_41)
      SECURE_CONNECTION) MULTI_STATEMENTS) MULTI_RESULTS) PLUGIN_AUTH in
  let capabilities :=
    match database with Some _ => Z.lor capabilities CONNECT_WITH_DB | None => capabilities end in
  let buffer := le_bytes 4 capabilities in
  let buffer := buffer ++ le_bytes 4 0 in
  let buffer := buffer ++ [collation] in
  let buffer := buffer ++ repeat 0 23 in
  let buffer := buffer ++ as_bytes username ++ [0] in
  let* auth_response := create_auth_response password scramble in
  let buffer := buffer ++ [Z.of_nat (List.length auth_response) mod 256] in
  let buffer := buffer ++ auth_response in
  let buffer := match database with
                | Some db => buffer ++ as_bytes db ++ [0]
                | None => buffer
                end in
  let buffer := buffer ++ as_bytes (s_ "mysql_native_password") ++ [0] in
  Ok buffer.

(* ------------------------------------------------------------------ *)
(** ** Binlog positions (src/offset.rs, [BinlogPosition::file_sequence]) *)

Definition file_sequence (filename : str) : option Z :=
  parse_u64 (last (split_on "." filename) []).

(* ------------------------------------------------------------------ *)
(** ** Recording and emptiness of GTID sets (src/gtid.rs, [GtidSet::add_gtid],
    [GtidSet::is_empty])

    [entry(..).or_insert_with(..)] inserts the per-UUID set before
    [UUIDGtidSet::add_gtid] runs; that call never returns [Err] (the range
    [sequence..=sequence] is valid), so the map is only observed after an
    [Ok] or a panic. *)

Definition GtidSet_add_gtid (gs : GtidSet) (gtid_s : str) : outcome GtidSet :=
  match split_on ":" gtid_s with
  | [u; sq] =>
      match parse_u64 sq with
      | Some sequence =>
          let us := match bt_get u gs.(sets) with
                    | Some us => us
                    | None => {| uuid := u; ranges := [] |}
                    end in
          let* us' := uuid_add_gtid us sequence in
          Ok {| sets := bt_insert u us' gs.(sets) |}
      | None => Err (GtidError (String.append "Invalid sequence: " (to_msg sq)))
      end
  | _ => Err (GtidError (String.append "Invalid GTID format: " (to_msg gtid_s)))
  end.

(** [sets.iter().all(|(_, set)| set.ranges.is_empty())]. *)
Definition is_empty (gs : GtidSet) : bool :=
  forallb (fun p => match (snd p).(ranges) with [] => true | _ => false end) gs.(sets).


(* ------------------------------------------------------------------ *)
(** ** Predicates and sample data for the parsers *)

(** [v] fits in an unsigned integer of [bits] bits. *)
Definition u_range (bits : Z) (v : Z) : Prop := 0 <= v < 2 ^ bits.

(** Wire form of a cell that [parse_row_data] decodes back to it. *)
Inductive cell_wire : CellValue -> bytes -> Prop :=
| wire_null : cell_wire Null [0]
| wire_u8 v : 0 <= v < 256 -> cell_wire (UInt8 v) [1; v]
| wire_u16 v : 0 <= v < 2 ^ 16 -> cell_wire (UInt16 v) (2 :: le_bytes 2 v)
| wire_u32 v : 0 <= v < 2 ^ 32 -> cell_wire (UInt32 v) (4 :: le_bytes 4 v)
| wire_byte b : 0 <= b < 256 -> b <> 0 -> b <> 1 -> b <> 2 -> b <> 4 ->
    cell_wire (Bytes [b]) [b].

(** Every range of the set ends below [u64::MAX]. *)
Definition below_max (gs : GtidSet) : Prop :=
  Forall (fun p => Forall (fun r => r.(end_) < U64_MAX) (snd p).(ranges)) gs.(sets).

Definition gtid_a5 : str := uuid_a ++ s_ ":5".


(* DEFS-END *)

(* ================================================================== *)
(** * Properties *)

(** ** Evaluation checks *)

Example read_lcb_small : read_lcb [7; 9] = Ok (7, [9]).
Proof. reflexivity. Qed.

Example read_lcb_fe_zero : read_lcb [254; 0; 0; 0; 0; 0; 0; 0; 0] = Ok (0, []).
Proof. reflexivity. Qed.

Example read_lcb_ff : read_lcb [255] = Err (BinlogParseError "Invalid LCB value").
Proof. reflexivity. Qed.

Example sha1_abc :
  sha1 (as_bytes (s_ "abc")) =
  [169; 153; 62; 54; 71; 6; 129; 106; 186; 62; 37; 113; 120; 80; 194; 108;
   156; 208; 216; 157].
Proof. vm_compute. reflexivity. Qed.

Example sha1_two_blocks :
  sha1 (as_bytes (s_ "abcdbcdecdefdefgefghfghighijhijkijkljklmklmnlmnomnopnopq")) =
  [132; 152; 62; 68; 28; 59; 210; 110; 186; 174; 74; 161; 249; 81; 41; 229;
   229; 70; 112; 241].
Proof. vm_compute. reflexivity. Qed.

Example sha1_empty :
  sha1 [] = [218; 57; 163; 238; 94; 107; 75; 13; 50; 85; 191; 239; 149; 96;
             24; 144; 175; 216; 7; 9].
Proof. vm_compute. reflexivity. Qed.

(* ------------------------------------------------------------------ *)
(** ** C1: length-coded binary *)

(** C1 (code_bug).  On the input [FC 01 00 05] the code reads the
    three-byte value [0x050001] after the [0xFC] prefix, where the
    documented decoding reads the two-byte value [1] and leaves [05]. *)
Theorem read_lcb_fc_reads_u24 :
  read_lcb [252; 1; 0; 5] = Ok (327681, [])
  /\ read_lcb_documented [252; 1; 0; 5] = Ok (1, [5]).
Proof. split; reflexivity. Qed.

(* ------------------------------------------------------------------ *)
(** ** Little-endian lemmas *)

Lemma le_value_app_zero : forall bs, le_value (bs ++ [0]) = le_value bs.
Proof. induction bs as [|b bs IH]; simpl; [reflexivity | rewrite IH; reflexivity]. Qed.

Lemma le_value_le_bytes : forall n v,
  le_value (le_bytes n v) = v mod 2 ^ (8 * Z.of_nat n).
Proof.
  induction n as [|n IH]; intros v.
  - simpl. rewrite Z.mod_1_r. reflexivity.
  - cbn [le_bytes le_value]. rewrite IH.
    replace (8 * Z.of_nat (S n)) with (8 + 8 * Z.of_nat n) by lia.
    rewrite Z.pow_add_r by lia.
    rewrite Z.rem_mul_r by (try lia; apply Z.pow_pos_nonneg; lia).
    reflexivity.
Qed.

Lemma length_le_bytes : forall n v, List.length (le_bytes n v) = n.
Proof. induction n; intros; simpl; [reflexivity | rewrite IHn; reflexivity]. Qed.

Lemma firstn_length_app {A} : forall (l r : list A), firstn (List.length l) (l ++ r) = l.
Proof. induction l; intros; simpl; [reflexivity | rewrite IHl; reflexivity]. Qed.

Lemma skipn_length_app {A} : forall (l r : list A), skipn (List.length l) (l ++ r) = r.
Proof. induction l; intros; simpl; [reflexivity | apply IHl]. Qed.

Lemma read_exact_app : forall (l r : bytes),
  read_exact (List.length l) (l ++ r) = Ok (l, r).
Proof.
  intros l r. unfold read_exact.
  rewrite length_app.
  replace (Nat.ltb (List.length l + List.length r) (List.length l)) with false
    by (symmetry; apply Nat.ltb_ge; lia).
  rewrite firstn_length_app, skipn_length_app. reflexivity.
Qed.

(* ------------------------------------------------------------------ *)
(** ** C3: packet framing *)

(** One frame on the stream is read back by one call, the bytes after it
    staying in the stream. *)
Lemma read_packet_frame : forall seq body rest,
  Z.of_nat (List.length body) <= MAX_PACKET_LENGTH ->
  read_packet (frame seq body ++ rest) = Ok (body, rest).
Proof.
  intros seq body rest Hlen. unfold read_packet, stream_read_exact, stream_read_u8, frame.
  rewrite <- app_assoc.
  rewrite <- (length_le_bytes 3 (Z.of_nat (List.length body))) at 1.
  rewrite read_exact_app. cbn [bind map_err].
  rewrite le_value_app_zero, le_value_le_bytes.
  rewrite Z.mod_small by (unfold MAX_PACKET_LENGTH in Hlen; simpl; lia).
  cbn [app read_u8 bind map_err].
  rewrite Nat2Z.id, read_exact_app. reflexivity.
Qed.

Lemma list_neq_snoc {A} : forall (l : list A) x, l <> l ++ [x].
Proof.
  intros l x H. apply (f_equal (@List.length A)) in H.
  rewrite length_app in H. simpl in H. lia.
Qed.

(** C3 (corrected).  A stream whose first frame has length field
    [0x00FFFFFF] and is followed by a one-byte continuation frame: the
    call returns the first body alone and leaves the continuation frame
    in the stream, instead of the concatenated body. *)
Lemma read_packet_max_frame_not_joined :
  read_packet (frame 0 (repeat 0 (Z.to_nat MAX_PACKET_LENGTH)) ++ frame 1 [171])
  = Ok (repeat 0 (Z.to_nat MAX_PACKET_LENGTH), frame 1 [171])
  /\ repeat 0 (Z.to_nat MAX_PACKET_LENGTH)
     <> repeat 0 (Z.to_nat MAX_PACKET_LENGTH) ++ [171].
Proof.
  split.
  - apply read_packet_frame. rewrite repeat_length.
    rewrite Z2Nat.id; [lia | unfold MAX_PACKET_LENGTH; lia].
  - apply list_neq_snoc.
Qed.

(** C3 (corrected).  [read_packet] reads exactly one frame: for a stream
    that starts with a frame [len:3 LE][seq][body], it returns [body] and
    leaves every following byte (a continuation frame included) unread,
    also when [len] is [0x00FFFFFF]. *)
Theorem read_packet_single_frame : forall seq body rest,
  Z.of_nat (List.length body) <= MAX_PACKET_LENGTH ->
  read_packet (frame seq body ++ rest) = Ok (body, rest).
Proof. exact read_packet_frame. Qed.

Lemma read_packet_single_frame_witness :
  Z.of_nat (List.length [1; 2]) <= MAX_PACKET_LENGTH
  /\ read_packet (frame 7 [1; 2] ++ frame 8 [3]) = Ok ([1; 2], frame 8 [3]).
Proof.
  split.
  - unfold MAX_PACKET_LENGTH; simpl; lia.
  - apply read_packet_single_frame. unfold MAX_PACKET_LENGTH; simpl; lia.
Defined.

(* ------------------------------------------------------------------ *)
(** ** C6: BINLOG_DUMP encoding *)

Lemma ascii_of_byte_as_bytes : forall f : str,
  map ascii_of_byte_z (as_bytes f) = f.
Proof.
  induction f as [|c f IH]; simpl; [reflexivity|].
  rewrite IH. unfold ascii_of_byte_z. rewrite Nat2Z.id, ascii_nat_embedding.
  reflexivity.
Qed.

Lemma le_value_le_bytes_4 : forall v,
  le_value (le_bytes 4 v) = v mod 2 ^ 32.
Proof. intros v. rewrite le_value_le_bytes. reflexivity. Qed.

(** C6 (corrected).  With [binlog_position = 2^32] the position field of
    the request is [0], so decoding the request by the documented layout
    does not give back the position. *)
Lemma binlog_dump_position_truncated :
  match create_binlog_dump_command 1 (s_ "f") (2 ^ 32) with
  | Ok buf => decode_binlog_dump_layout buf = Some (1, s_ "f", 0)
  | _ => False
  end
  /\ 0 <> 2 ^ 32.
Proof. split; [reflexivity | lia]. Qed.

(** C6 (corrected).  For every [u32] server id [S], file name [F] and
    position [P], the request is [0x12][P as u32 LE][0u16][S u32 LE][bytes
    of F], and reading it back by that layout gives [S], [F] and
    [P mod 2^32], which is [P] exactly when [P < 2^32]. *)
Theorem binlog_dump_roundtrip : forall (S : Z) (F : str) (P : Z),
  0 <= S < 2 ^ 32 ->
  create_binlog_dump_command S F P
    = Ok ([18] ++ le_bytes 4 (P mod 2 ^ 32) ++ [0; 0] ++ le_bytes 4 S ++ as_bytes F)
  /\ decode_binlog_dump_layout
       ([18] ++ le_bytes 4 (P mod 2 ^ 32) ++ [0; 0] ++ le_bytes 4 S ++ as_bytes F)
     = Some (S, F, P mod 2 ^ 32)
  /\ (0 <= P < 2 ^ 32 -> P mod 2 ^ 32 = P).
Proof.
  intros S F P HS. split; [|split].
  - unfold create_binlog_dump_command. rewrite <- !app_assoc. reflexivity.
  - unfold decode_binlog_dump_layout. cbn [app le_bytes].
    cbn [le_value]. unfold COM_BINLOG_DUMP.
    replace (18 =? 18) with true by reflexivity.
    replace (0 mod 256 + 256 * (0 / 256 mod 256 + 256 * 0) =? 0) with true
      by reflexivity.
    cbn [andb]. rewrite ascii_of_byte_as_bytes.
    pose proof (le_value_le_bytes_4 S) as ES.
    pose proof (le_value_le_bytes_4 (P mod 2 ^ 32)) as EP.
    cbn [le_bytes le_value] in ES, EP.
    rewrite ES, EP, Z.mod_mod, (Z.mod_small S) by lia.
    reflexivity.
  - intros HP. apply Z.mod_small. exact HP.
Qed.

Lemma binlog_dump_roundtrip_witness :
  (0 <= 1 < 2 ^ 32)
  /\ decode_binlog_dump_layout
       ([18] ++ le_bytes 4 (4 mod 2 ^ 32) ++ [0; 0] ++ le_bytes 4 1
          ++ as_bytes (s_ "mysql-bin.000001"))
     = Some (1, s_ "mysql-bin.000001", 4 mod 2 ^ 32).
Proof.
  split; [lia|].
  apply (binlog_dump_roundtrip 1 (s_ "mysql-bin.000001") 4). lia.
Defined.

(* ------------------------------------------------------------------ *)
(** ** C7: mysql_native_password *)

Lemma sha1_length : forall d, List.length (sha1 d) = 20%nat.
Proof.
  intros d. unfold sha1, Sha1.digest.
  destruct (Sha1.process _ Sha1.h_init _) as [[[[h0 h1] h2] h3] h4].
  reflexivity.
Qed.

Ltac destruct_20 l :=
  do 20 (destruct l as [|? l]; [discriminate|]);
  destruct l; [|discriminate].

Lemma xor_loop_20 : forall a b,
  List.length a = 20%nat -> List.length b = 20%nat ->
  exists r, xor_loop a b 0 20 [] = Ok r /\ List.length r = 20%nat
    /\ forall i, (i < 20)%nat -> nth i r 0 = Z.lxor (nth i a 0) (nth i b 0).
Proof.
  intros a b Ha Hb.
  destruct_20 a. destruct_20 b.
  eexists. split; [reflexivity|]. split; [reflexivity|].
  intros i Hi.
  do 20 (destruct i as [|i]; [reflexivity|]). lia.
Qed.

(** C7 (confirmed).  An empty password gives the empty reply; any other
    password gives exactly 20 bytes, byte [i] being
    [SHA1(password)[i] XOR SHA1(scramble ++ SHA1(SHA1(password)))[i]]. *)
Theorem create_auth_response_spec : forall (password : str) (scramble : bytes),
  exists r, create_auth_response password scramble = Ok r /\
  match password with
  | [] => r = []
  | _ :: _ =>
      List.length r = 20%nat /\
      forall i, (i < 20)%nat ->
        nth i r 0 = Z.lxor (nth i (sha1 (as_bytes password)) 0)
                          (nth i (sha1 (scramble ++ sha1 (sha1 (as_bytes password)))) 0)
  end.
Proof.
  intros password scramble. destruct password as [|c password'].
  - exists []. split; reflexivity.
  - destruct (xor_loop_20 (sha1 (as_bytes (c :: password')))
                (sha1 (scramble ++ sha1 (sha1 (as_bytes (c :: password')))))
                (sha1_length _) (sha1_length _)) as [r [Hr [Hlen Hnth]]].
    exists r. split; [exact Hr | split; assumption].
Qed.

(* ------------------------------------------------------------------ *)
(** ** C8, C9: change records *)

(** C8 (confirmed).  Every change record built from a WRITE, UPDATE or
    DELETE rows event or from a QUERY event has the shape of its
    operation: Insert has [after] only, Delete [before] only, Update both,
    Ddl the query text, an empty table name and no images. *)
Theorem change_records_shape : forall cfg tbl now src ev,
  In ev (change_records cfg tbl now src) -> shape_ok ev.
Proof.
  intros cfg tbl now src ev Hin.
  destruct src as [d|d|d|d]; simpl in Hin.
  - unfold write_rows_to_change_event in Hin.
    apply in_map_iff in Hin as [row [<- _]].
    unfold shape_ok; simpl; split; [reflexivity | discriminate].
  - unfold update_rows_to_change_event in Hin.
    apply in_map_iff in Hin as [[b a] [<- _]].
    unfold shape_ok; simpl; split; discriminate.
  - unfold delete_rows_to_change_event in Hin.
    apply in_map_iff in Hin as [row [<- _]].
    unfold shape_ok; simpl; split; [discriminate | reflexivity].
  - unfold query_to_change_event in Hin.
    destruct (negb (include_ddl cfg)); [contradiction|].
    destruct (_ || _)%bool; [|contradiction].
    destruct Hin as [<-|[]].
    unfold shape_ok; simpl. repeat split; discriminate.
Qed.

Lemma change_records_shape_witness :
  In {| gtid := None; op := Ddl; timestamp := 0; database := s_ "test";
        table := []; before := None; after := None;
        query := Some (s_ "create table t (x int)") |}
     (change_records ddl_config
        {| tm_database := s_ "test"; tm_table := s_ "t"; columns := [s_ "x"];
           column_types := [s_ "int"]; primary_key := [] |} 0
        (SrcQuery {| thread_id := 1; exec_time := 0; q_database := s_ "test";
                     q_query := s_ "create table t (x int)" |}))
  /\ shape_ok {| gtid := None; op := Ddl; timestamp := 0; database := s_ "test";
                 table := []; before := None; after := None;
                 query := Some (s_ "create table t (x int)") |}.
Proof.
  assert (H : In {| gtid := None; op := Ddl; timestamp := 0; database := s_ "test";
        table := []; before := None; after := None;
        query := Some (s_ "create table t (x int)") |}
     (change_records ddl_config
        {| tm_database := s_ "test"; tm_table := s_ "t"; columns := [s_ "x"];
           column_types := [s_ "int"]; primary_key := [] |} 0
        (SrcQuery {| thread_id := 1; exec_time := 0; q_database := s_ "test";
                     q_query := s_ "create table t (x int)" |}))).
  { vm_compute. left. reflexivity. }
  split; [exact H|].
  exact (change_records_shape _ _ _ _ _ H).
Defined.

Example query_ddl_lowercase :
  query_to_change_event ddl_config
    {| thread_id := 1; exec_time := 0; q_database := s_ "db";
       q_query := s_ "alter table t add c int" |} 5
  = Some {| gtid := None; op := Ddl; timestamp := 5; database := s_ "db";
            table := []; before := None; after := None;
            query := Some (s_ "alter table t add c int") |}.
Proof. vm_compute. reflexivity. Qed.

(** C9 (code_bug).  With DDL reporting enabled, the queries
    [TRUNCATE TABLE t] and [rename table a to b] yield no Ddl record: only
    the prefixes CREATE, ALTER and DROP are tested. *)
Theorem query_truncate_rename_not_reported :
  query_to_change_event ddl_config
    {| thread_id := 1; exec_time := 0; q_database := s_ "db";
       q_query := s_ "TRUNCATE TABLE t" |} 0 = None
  /\ query_to_change_event ddl_config
    {| thread_id := 1; exec_time := 0; q_database := s_ "db";
       q_query := s_ "rename table a to b" |} 0 = None.
Proof. split; vm_compute; reflexivity. Qed.

(* ------------------------------------------------------------------ *)
(** ** C4: GTID parse results *)

Example parse_single_range :
  parse (uuid_a ++ s_ ":1-100") =
  Ok {| sets := [(uuid_a, {| uuid := uuid_a;
                            ranges := [{| start := 1; end_ := 100 |}] |})] |}.
Proof. vm_compute. reflexivity. Qed.

Example parse_reversed_range_rejected :
  parse (uuid_a ++ s_ ":5-3") = Err (GtidError "Invalid range: start > end").
Proof. vm_compute. reflexivity. Qed.

(** C4 (code_bug).  The empty string and [NULL] parse to the empty set,
    but the malformed token [1-2-3] is accepted: [parse] succeeds with the
    UUID mapped to no range at all. *)
Theorem parse_malformed_range_accepted :
  parse [] = Ok GtidSet_new
  /\ parse (s_ "NULL") = Ok GtidSet_new
  /\ parse (uuid_a ++ s_ ":1-2-3")
     = Ok {| sets := [(uuid_a, {| uuid := uuid_a; ranges := [] |})] |}.
Proof. split; [|split]; vm_compute; reflexivity. Qed.

(* ------------------------------------------------------------------ *)
(** ** Parse then serialize *)

(** C2 (code bug): [GtidSet::parse] ends a UUID's range text at the first
    [','], so a second range of the same UUID is lost.  The text
    [uuid:1-3,5], written the way [to_string] writes two ranges, parses to
    the UUID with the one range [1-3] and serializes back as [uuid:1-3].
    The example of the doc comment of [parse],
    [uuid1:1-100,200,uuid2:1-50], gives [1-100] under [uuid1] and [1-50]
    under a UUID named [200,uuid2]. *)
Theorem parse_comma_ranges_lost :
  parse (uuid_a ++ s_ ":1-3,5")
  = Ok {| sets := [(uuid_a, {| uuid := uuid_a; ranges := [{| start := 1; end_ := 3 |}] |})] |}
  /\ to_string {| sets := [(uuid_a, {| uuid := uuid_a; ranges := [{| start := 1; end_ := 3 |}] |})] |}
     = uuid_a ++ s_ ":1-3"
  /\ parse (uuid_a ++ s_ ":1-100,200," ++ uuid_b ++ s_ ":1-50")
     = Ok {| sets := [(s_ "200," ++ uuid_b,
                       {| uuid := s_ "200," ++ uuid_b; ranges := [{| start := 1; end_ := 50 |}] |});
                      (uuid_a, {| uuid := uuid_a; ranges := [{| start := 1; end_ := 100 |}] |})] |}.
Proof. split; [|split]; vm_compute; reflexivity. Qed.

(* ------------------------------------------------------------------ *)
(** ** Keys and maps *)

Lemma str_eqb_spec : forall a b, reflect (a = b) (str_eqb a b).
Proof.
  induction a as [|x a IH]; destruct b as [|y b]; simpl;
    try (constructor; congruence).
  destruct (Ascii.eqb_spec x y) as [<-|Hne]; simpl.
  - destruct (IH b); constructor; congruence.
  - constructor; congruence.
Qed.


Lemma bt_get_set {V} : forall (m : BTreeMap V) k k0 v,
  bt_get k (bt_set k0 v m) =
  if str_eqb k k0 then match bt_get k0 m with Some _ => Some v | None => None end
  else bt_get k m.
Proof.
  induction m as [|[k' v'] m IH]; intros k k0 v; simpl.
  - destruct (str_eqb k k0); reflexivity.
  - destruct (str_eqb_spec k0 k') as [E|Hne]; simpl.
    + subst k'. destruct (str_eqb_spec k k0); reflexivity.
    + rewrite IH. destruct (str_eqb_spec k k0) as [E|Hne'].
      * subst k. destruct (str_eqb_spec k0 k'); [contradiction | reflexivity].
      * reflexivity.
Qed.

(* ------------------------------------------------------------------ *)
(** ** Range membership under [subtract] *)

Lemma rs_mem_app : forall a b n, rs_mem (a ++ b) n = rs_mem a n || rs_mem b n.
Proof. intros. unfold rs_mem. apply existsb_app. Qed.

Ltac solve_range_bool :=
  unfold range_contains; simpl;
  repeat match goal with
         | |- context [Z.leb ?a ?b] => destruct (Z.leb_spec a b)
         end;
  simpl; try reflexivity; try lia.

(** The overlapping branch of the loop body: the residual pieces hold
    exactly the values of [range] outside [other_range]. *)
Lemma overlap_pieces_mem : forall (range o : GtidRange) acc acc1 acc2 n,
  o.(start) <= range.(end_) -> range.(start) <= o.(end_) ->
  (if range.(start) <? o.(start) then
     let* e := sub_u64 o.(start) 1 in
     let* r := unwrap (GtidRange_new range.(start) e) in
     Ok (acc ++ [r])
   else Ok acc) = Ok acc1 ->
  (if o.(end_) <? range.(end_) then
     let* s := add_u64 o.(end_) 1 in
     let* r := unwrap (GtidRange_new s range.(end_)) in
     Ok (acc1 ++ [r])
   else Ok acc1) = Ok acc2 ->
  rs_mem acc2 n = rs_mem acc n || (range_contains range n && negb (range_contains o n)).
Proof.
  intros range o acc acc1 acc2 n H1 H2 E1 E2.
  unfold sub_u64, add_u64, GtidRange_new in E1, E2.
  destruct (Z.ltb_spec range.(start) o.(start));
  [destruct (Z.ltb_spec (o.(start) - 1) 0); [discriminate|];
   simpl in E1;
   destruct (Z.ltb_spec (o.(start) - 1) range.(start)); [discriminate|];
   simpl in E1|];
  (destruct (Z.ltb_spec o.(end_) range.(end_));
   [destruct (Z.ltb_spec U64_MAX (o.(end_) + 1)); [discriminate|];
    simpl in E2;
    destruct (Z.ltb_spec range.(end_) (o.(end_) + 1)); [discriminate|];
    simpl in E2|]);
  injection E1 as <-; injection E2 as <-;
  rewrite ?rs_mem_app; destruct (rs_mem acc n); simpl; try reflexivity;
  solve_range_bool.
Qed.

Lemma subtract_range_mem : forall o rs acc out n,
  subtract_range o rs acc = Ok out ->
  rs_mem out n = rs_mem acc n || (rs_mem rs n && negb (range_contains o n)).
Proof.
  intros o rs. induction rs as [|range rs IH]; intros acc out n H; simpl in H.
  - injection H as <-. simpl. rewrite orb_false_r. reflexivity.
  - destruct ((range.(end_) <? o.(start)) || (o.(end_) <? range.(start)))%bool
      eqn:Hdisj.
    + rewrite (IH _ _ n H), rs_mem_app.
      assert (Hx : range_contains range n = true -> range_contains o n = false).
      { unfold range_contains. intros Hc.
        apply andb_true_iff in Hc as [Ha Hb]. apply Z.leb_le in Ha, Hb.
        apply orb_true_iff in Hdisj as [Hd|Hd]; apply Z.ltb_lt in Hd;
          apply andb_false_iff; [left | right]; apply Z.leb_gt; lia. }
      cbn [rs_mem existsb]. fold (rs_mem rs n).
      destruct (range_contains range n) eqn:Hc;
        [rewrite (Hx eq_refl) |];
        destruct (rs_mem acc n), (rs_mem rs n); try reflexivity;
        destruct (range_contains o n); reflexivity.
    + apply orb_false_iff in Hdisj as [H1 H2].
      apply Z.ltb_ge in H1, H2.
      destruct (if range.(start) <? o.(start) then _ else _) as [acc1| |] eqn:E1;
        try discriminate.
      simpl in H.
      destruct (if o.(end_) <? range.(end_) then _ else _) as [acc2| |] eqn:E2;
        try discriminate.
      simpl in H.
      rewrite (IH _ _ n H).
      rewrite (overlap_pieces_mem range o acc acc1 acc2 n H1 H2 E1 E2).
      cbn [rs_mem existsb]. fold (rs_mem rs n).
      destruct (rs_mem acc n), (range_contains range n), (rs_mem rs n),
        (range_contains o n); reflexivity.
Qed.

Lemma subtract_ranges_mem : forall others rs out n,
  subtract_ranges others rs = Ok out ->
  rs_mem out n = rs_mem rs n && negb (rs_mem others n).
Proof.
  induction others as [|o others IH]; intros rs out n H; simpl in H.
  - injection H as <-. simpl. rewrite andb_true_r. reflexivity.
  - destruct (subtract_range o rs []) as [rs1| |] eqn:E; try discriminate.
    simpl in H. rewrite (IH _ _ n H), (subtract_range_mem o rs [] rs1 n E).
    cbn [rs_mem existsb]. fold (rs_mem others n).
    destruct (rs_mem rs n), (range_contains o n), (rs_mem others n); reflexivity.
Qed.

Lemma piece_length : forall (c : bool) (m : outcome Z) (mk : Z -> outcome GtidRange)
    (acc acc1 : list GtidRange),
  (if c then let* e := m in let* r := unwrap (mk e) in Ok (acc ++ [r])
   else Ok acc) = Ok acc1 ->
  (List.length acc1 <= S (List.length acc))%nat.
Proof.
  intros c m mk acc acc1 H. destruct c.
  - destruct m as [e| |]; try discriminate. simpl in H.
    destruct (mk e) as [r| |]; try discriminate. simpl in H.
    injection H as <-. rewrite length_app. simpl. lia.
  - injection H as <-. lia.
Qed.

Lemma subtract_range_length : forall o rs acc out,
  subtract_range o rs acc = Ok out ->
  (List.length out <= List.length acc + 2 * List.length rs)%nat.
Proof.
  intros o rs. induction rs as [|range rs IH]; intros acc out H; simpl in H.
  - injection H as <-. lia.
  - destruct (_ || _)%bool.
    + apply IH in H. rewrite length_app in H. simpl in *. lia.
    + destruct (if range.(start) <? o.(start) then _ else _) as [acc1| |] eqn:E1;
        try discriminate.
      simpl in H.
      destruct (if o.(end_) <? range.(end_) then _ else _) as [acc2| |] eqn:E2;
        try discriminate.
      simpl in H.
      apply piece_length in E1. apply piece_length in E2.
      apply IH in H. simpl. lia.
Qed.

Lemma bt_get_not_in {V} : forall (m : BTreeMap V) k,
  ~ In k (map fst m) -> bt_get k m = None.
Proof.
  induction m as [|[k' v'] m IH]; intros k Hn; simpl in *; [reflexivity|].
  destruct (str_eqb_spec k k') as [E|_]; [subst; tauto|].
  apply IH. tauto.
Qed.

Lemma subtract_sets_mem : forall other result out,
  NoDup (map fst other) ->
  subtract_sets other result = Ok out ->
  forall u n, mem out u n = mem result u n && negb (mem other u n).
Proof.
  induction other as [|[u0 os] other IH]; intros result out Hnd H u n;
    simpl in H.
  - injection H as <-. unfold mem at 3. simpl. rewrite andb_true_r. reflexivity.
  - simpl in Hnd. inversion Hnd as [|? ? Hnin Hnd']; subst.
    assert (Hother : mem ((u0, os) :: other) u n =
                     if str_eqb u u0 then uuid_contains os n else mem other u n).
    { unfold mem. simpl. destruct (str_eqb u u0); reflexivity. }
    assert (Hfresh : u = u0 -> mem other u n = false).
    { intros ->. unfold mem. rewrite bt_get_not_in by exact Hnin. reflexivity. }
    rewrite Hother.
    destruct (bt_get u0 result) as [rset|] eqn:G.
    + destruct (subtract_ranges os.(ranges) rset.(ranges)) as [rs| |] eqn:S;
        try discriminate.
      simpl in H. rewrite (IH _ _ Hnd' H u n).
      unfold mem at 1. rewrite bt_get_set, G.
      destruct (str_eqb_spec u u0) as [->|Hne].
      * rewrite (Hfresh eq_refl). unfold mem. rewrite G.
        unfold uuid_contains; simpl.
        fold (rs_mem rs n) (rs_mem rset.(ranges) n) (rs_mem os.(ranges) n).
        rewrite (subtract_ranges_mem _ _ _ n S).
        rewrite andb_true_r. reflexivity.
      * reflexivity.
    + simpl in H. rewrite (IH _ _ Hnd' H u n).
      destruct (str_eqb_spec u u0) as [->|Hne].
      * rewrite (Hfresh eq_refl). unfold mem. rewrite G. reflexivity.
      * reflexivity.
Qed.

Lemma contains_mem : forall gs g,
  contains gs g =
  match split_on ":" g with
  | [u; sq] => match parse_u64 sq with
               | Some n => mem gs.(sets) u n
               | None => false
               end
  | _ => false
  end.
Proof. reflexivity. Qed.

(* ------------------------------------------------------------------ *)
(** ** C5, C10: subtract *)

(** C5 (confirmed).  For GTID sets [A] and [B] ([B]'s keys distinct, as
    in a [BTreeMap]), the set [A.subtract(B)] contains a GTID string [g]
    exactly when [A] contains [g] and [B] does not; and a single range,
    whatever range it is subtracted from, leaves at most two residual
    ranges. *)
Theorem subtract_contains : forall A B R,
  NoDup (map fst B.(sets)) ->
  subtract A B = Ok R ->
  (forall g, contains R g = contains A g && negb (contains B g))
  /\ (forall o r out, subtract_range o [r] [] = Ok out ->
                      (List.length out <= 2)%nat).
Proof.
  intros A B R Hnd H. split.
  - intros g. unfold subtract in H.
    destruct (subtract_sets B.(sets) A.(sets)) as [s| |] eqn:E; try discriminate.
    simpl in H. injection H as <-.
    rewrite !contains_mem.
    destruct (split_on ":" g) as [|u [|sq [|x l]]]; try reflexivity.
    destruct (parse_u64 sq) as [n|]; [|reflexivity].
    apply (subtract_sets_mem _ _ _ Hnd E).
  - intros o r out Hr. apply subtract_range_length in Hr. simpl in Hr. lia.
Qed.

Lemma subtract_contains_witness :
  NoDup (map fst gtid_B.(sets))
  /\ subtract gtid_A gtid_B = Ok gtid_A_minus_B
  /\ contains gtid_A_minus_B (uuid_a ++ s_ ":50")
     = contains gtid_A (uuid_a ++ s_ ":50")
       && negb (contains gtid_B (uuid_a ++ s_ ":50")).
Proof.
  assert (Hnd : NoDup (map fst gtid_B.(sets))).
  { simpl. constructor; [simpl; tauto | constructor]. }
  assert (Hs : subtract gtid_A gtid_B = Ok gtid_A_minus_B).
  { vm_compute. reflexivity. }
  split; [exact Hnd | split; [exact Hs|]].
  exact (proj1 (subtract_contains gtid_A gtid_B gtid_A_minus_B Hnd Hs) _).
Defined.

Lemma subtract_range_ok : forall o rs acc,
  Forall range_u64 rs -> Forall range_u64 acc ->
  exists out, subtract_range o rs acc = Ok out /\ Forall range_u64 out.
Proof.
  intros o rs. induction rs as [|range rs IH]; intros acc Hrs Hacc; simpl.
  - exists acc. split; [reflexivity | exact Hacc].
  - inversion Hrs as [|? ? [[Hs0 Hs1] [He0 He1]] Hrs']; subst.
    destruct (_ || _)%bool eqn:Hdisj.
    + apply IH; [exact Hrs'|]. apply Forall_app. split; [exact Hacc|].
      constructor; [split; split; lia | constructor].
    + apply orb_false_iff in Hdisj as [H1 H2]. apply Z.ltb_ge in H1, H2.
      unfold sub_u64, add_u64, GtidRange_new.
      assert (Hleft : exists acc1,
        (if range.(start) <? o.(start) then
           let* e := (if o.(start) - 1 <? 0 then Panic else Ok (o.(start) - 1)) in
           let* r := unwrap (if e <? range.(start) then Err (GtidError "Invalid range: start > end")
                             else Ok {| start := range.(start); end_ := e |}) in
           Ok (acc ++ [r])
         else Ok acc) = Ok acc1 /\ Forall range_u64 acc1).
      { destruct (Z.ltb_spec range.(start) o.(start)).
        - destruct (Z.ltb_spec (o.(start) - 1) 0); [lia|]. simpl.
          destruct (Z.ltb_spec (o.(start) - 1) range.(start)); [lia|]. simpl.
          eexists. split; [reflexivity|]. apply Forall_app. split; [exact Hacc|].
          constructor; [unfold range_u64, is_u64; simpl; split; lia | constructor].
        - exists acc. split; [reflexivity | exact Hacc]. }
      destruct Hleft as [acc1 [-> Hacc1]]. simpl.
      assert (Hright : exists acc2,
        (if o.(end_) <? range.(end_) then
           let* s := (if U64_MAX <? o.(end_) + 1 then Panic else Ok (o.(end_) + 1)) in
           let* r := unwrap (if range.(end_) <? s then Err (GtidError "Invalid range: start > end")
                             else Ok {| start := s; end_ := range.(end_) |}) in
           Ok (acc1 ++ [r])
         else Ok acc1) = Ok acc2 /\ Forall range_u64 acc2).
      { destruct (Z.ltb_spec o.(end_) range.(end_)).
        - destruct (Z.ltb_spec U64_MAX (o.(end_) + 1)); [lia|]. simpl.
          destruct (Z.ltb_spec range.(end_) (o.(end_) + 1)); [lia|]. simpl.
          eexists. split; [reflexivity|]. apply Forall_app. split; [exact Hacc1|].
          constructor; [unfold range_u64, is_u64; simpl; split; lia | constructor].
        - exists acc1. split; [reflexivity | exact Hacc1]. }
      destruct Hright as [acc2 [-> Hacc2]]. simpl.
      apply IH; assumption.
Qed.

Lemma subtract_ranges_ok : forall others rs,
  Forall range_u64 rs ->
  exists out, subtract_ranges others rs = Ok out /\ Forall range_u64 out.
Proof.
  induction others as [|o others IH]; intros rs Hrs; simpl.
  - exists rs. split; [reflexivity | exact Hrs].
  - destruct (subtract_range_ok o rs [] Hrs (Forall_nil _)) as [rs1 [-> H1]].
    simpl. apply IH. exact H1.
Qed.

Lemma bt_set_forall : forall (P : UUIDGtidSet -> Prop) m k v,
  Forall (fun p => P (snd p)) m -> P v -> Forall (fun p => P (snd p)) (bt_set k v m).
Proof.
  intros P m k v Hm Hv. induction Hm as [|[k' v'] m Hp Hm IH]; simpl; [constructor|].
  destruct (str_eqb k k'); constructor; auto.
Qed.

Lemma bt_get_forall : forall (P : UUIDGtidSet -> Prop) m k v,
  Forall (fun p => P (snd p)) m -> bt_get k m = Some v -> P v.
Proof.
  intros P m k v Hm. induction Hm as [|[k' v'] m Hp Hm IH]; simpl; [discriminate|].
  destruct (str_eqb k k'); [intros E; injection E as <-; exact Hp | exact IH].
Qed.

Lemma subtract_sets_ok : forall other result,
  Forall (fun p => Forall range_u64 (snd p).(ranges)) result ->
  exists out, subtract_sets other result = Ok out
              /\ Forall (fun p => Forall range_u64 (snd p).(ranges)) out.
Proof.
  induction other as [|[u os] other IH]; intros result Hres; simpl.
  - exists result. split; [reflexivity | exact Hres].
  - destruct (bt_get u result) as [rset|] eqn:G.
    + pose proof (bt_get_forall (fun v => Forall range_u64 v.(ranges)) _ _ _ Hres G) as Hr.
      destruct (subtract_ranges_ok os.(ranges) rset.(ranges) Hr) as [rs [-> Hrs]].
      simpl. apply IH.
      apply (bt_set_forall (fun v => Forall range_u64 v.(ranges))); assumption.
    + simpl. apply IH. exact Hres.
Qed.

(** C10 (confirmed).  [subtract] never panics: for every GTID set [A]
    whose range fields are [u64] values and every [B], the checked
    [other_range.start - 1] and [other_range.end + 1] stay within [u64],
    every [GtidRange::new(..).unwrap()] succeeds, and the result again
    has [u64] fields.  No [start >= 1] assumption is made, and [B]'s
    ranges are unconstrained. *)
Theorem subtract_no_panic : forall A B,
  gtid_set_u64 A -> exists R, subtract A B = Ok R /\ gtid_set_u64 R.
Proof.
  intros A B HA. unfold subtract.
  destruct (subtract_sets_ok B.(sets) A.(sets) HA) as [s [-> Hs]].
  exists {| sets := s |}. split; [reflexivity | exact Hs].
Qed.

Lemma subtract_no_panic_witness :
  gtid_set_u64 gtid_A /\ exists R, subtract gtid_A gtid_B = Ok R /\ gtid_set_u64 R.
Proof.
  assert (H : gtid_set_u64 gtid_A).
  { unfold gtid_set_u64, range_u64, is_u64, U64_MAX; simpl.
    repeat first [apply Forall_nil | apply Forall_cons | split | simpl; lia]. }
  split; [exact H | exact (subtract_no_panic gtid_A gtid_B H)].
Defined.

(* ------------------------------------------------------------------ *)
(** ** Decimal text lemmas *)

Lemma digit_char_code : forall d, 0 <= d < 10 -> char_code (digit_char d) = 48 + d.
Proof.
  intros d Hd. unfold char_code, digit_char.
  rewrite nat_ascii_embedding by lia. lia.
Qed.

Lemma digit_char_is_digit : forall d, 0 <= d < 10 -> is_digit (digit_char d) = true.
Proof.
  intros d Hd. unfold is_digit. rewrite digit_char_code by exact Hd.
  apply andb_true_iff; split; apply Z.leb_le; lia.
Qed.

Lemma digit_value_digit_char : forall d, 0 <= d < 10 ->
  digit_value (digit_char d) = Some d.
Proof.
  intros d Hd. unfold digit_value. rewrite digit_char_code by exact Hd.
  replace ((48 <=? 48 + d) && (48 + d <=? 57)) with true
    by (symmetry; apply andb_true_iff; split; apply Z.leb_le; lia).
  f_equal. lia.
Qed.

Lemma digits_rev_digits : forall f n, Forall (fun c => is_digit c = true) (digits_rev f n).
Proof.
  induction f as [|f IH]; intros n; simpl; [constructor|].
  constructor.
  - apply digit_char_is_digit. apply Z.mod_pos_bound. lia.
  - destruct (n / 10 =? 0); [constructor | apply IH].
Qed.

Lemma u64_to_string_digits : forall n,
  Forall (fun c => is_digit c = true) (u64_to_string n).
Proof.
  intros n. unfold u64_to_string. apply Forall_rev. apply digits_rev_digits.
Qed.

Lemma u64_to_string_nonempty : forall n, u64_to_string n <> [].
Proof.
  intros n. unfold u64_to_string. simpl. intros H.
  apply (f_equal (@List.length ascii)) in H. rewrite length_app in H.
  simpl in H. lia.
Qed.

Lemma parse_digits_app : forall a b acc,
  parse_digits (a ++ b) acc =
  match parse_digits a acc with Some v => parse_digits b v | None => None end.
Proof.
  induction a as [|c a IH]; intros b acc; simpl; [reflexivity|].
  destruct (digit_value c); [apply IH | reflexivity].
Qed.

Lemma parse_digits_rev : forall f n acc,
  0 <= n < 10 ^ Z.of_nat f ->
  exists k, 0 <= k /\ parse_digits (rev (digits_rev f n)) acc = Some (acc * 10 ^ k + n).
Proof.
  induction f as [|f IH]; intros n acc Hn.
  - simpl in Hn. exists 0. simpl. split; [lia|]. f_equal. lia.
  - cbn [digits_rev rev]. rewrite parse_digits_app.
    assert (Hm : 0 <= n mod 10 < 10) by (apply Z.mod_pos_bound; lia).
    pose proof (Z.div_mod n 10 ltac:(lia)) as Hdm.
    destruct (Z.eqb_spec (n / 10) 0) as [Hz|Hnz].
    + exists 1. simpl. rewrite digit_value_digit_char by exact Hm.
      split; [lia|]. f_equal. lia.
    + assert (Hq : 0 <= n / 10 < 10 ^ Z.of_nat f).
      { split; [apply Z.div_pos; lia|].
        rewrite Nat2Z.inj_succ, Z.pow_succ_r in Hn by lia.
        apply Z.div_lt_upper_bound; lia. }
      destruct (IH (n / 10) acc Hq) as [k [Hk ->]].
      exists (k + 1). simpl. rewrite digit_value_digit_char by exact Hm.
      split; [lia|]. f_equal. rewrite Z.pow_add_r by lia. lia.
Qed.

Lemma parse_digits_u64_to_string : forall n, 0 <= n <= U64_MAX ->
  parse_digits (u64_to_string n) 0 = Some n.
Proof.
  intros n Hn. unfold u64_to_string.
  assert (Hb : 0 <= n < 10 ^ Z.of_nat 20) by (unfold U64_MAX in Hn; simpl; lia).
  destruct (parse_digits_rev 20 n 0 Hb) as [k [_ ->]].
  reflexivity.
Qed.

Lemma is_digit_not_sign : forall c, is_digit c = true ->
  Ascii.eqb c "+" = false /\ Ascii.eqb c "-" = false.
Proof.
  intros c Hc. unfold is_digit in Hc.
  apply andb_true_iff in Hc as [H1 H2]. apply Z.leb_le in H1, H2.
  split; destruct (Ascii.eqb_spec c "+"%char) as [E|_]; try reflexivity;
    try (destruct (Ascii.eqb_spec c "-"%char) as [E|_]; [|reflexivity]);
    subst c; vm_compute in H1; congruence.
Qed.

Lemma parse_u64_to_string : forall n, 0 <= n <= U64_MAX ->
  parse_u64 (u64_to_string n) = Some n.
Proof.
  intros n Hn. pose proof (u64_to_string_digits n) as Hd.
  pose proof (parse_digits_u64_to_string n Hn) as Hp.
  unfold parse_u64. destruct (u64_to_string n) as [|c rest] eqn:E.
  - exfalso. exact (u64_to_string_nonempty n E).
  - try rewrite E in Hd; try rewrite E in Hp. inversion Hd as [|? ? Hc _]; subst.
    destruct (is_digit_not_sign c Hc) as [H1 H2]. rewrite H1, H2.
    cbn [orb andb]. cbv beta iota zeta.
    rewrite Hp. replace (n <=? U64_MAX) with true by (symmetry; apply Z.leb_le; lia).
    reflexivity.
Qed.

(* ------------------------------------------------------------------ *)
(** ** Splitting, trimming and scanning *)

Lemma digit_neq : forall c x, is_digit c = true -> is_digit x = false -> c <> x.
Proof. intros c x Hc Hx ->. congruence. Qed.

Lemma digit_not_whitespace : forall c, is_digit c = true -> is_whitespace c = false.
Proof.
  intros c Hc. unfold is_digit, char_code in Hc. unfold is_whitespace.
  apply andb_true_iff in Hc as [H1 H2]. apply Z.leb_le in H1, H2.
  destruct (Nat.leb_spec 9 (nat_of_ascii c)), (Nat.leb_spec (nat_of_ascii c) 13),
    (Nat.eqb_spec (nat_of_ascii c) 32); simpl; try reflexivity; lia.
Qed.

Lemma not_in_digits : forall x s, is_digit x = false ->
  Forall (fun c => is_digit c = true) s -> ~ In x s.
Proof.
  intros x s Hx Hs Hin. rewrite Forall_forall in Hs.
  specialize (Hs x Hin). congruence.
Qed.

Lemma split_on_no_sep : forall sep s, ~ In sep s -> split_on sep s = [s].
Proof.
  intros sep. induction s as [|c s IH]; intros Hn; simpl; [reflexivity|].
  destruct (Ascii.eqb_spec c sep) as [->|_]; [simpl in Hn; tauto|].
  rewrite IH by (simpl in Hn; tauto). reflexivity.
Qed.

Lemma split_on_app : forall sep a b, ~ In sep a ->
  split_on sep (a ++ sep :: b) = a :: split_on sep b.
Proof.
  intros sep. induction a as [|c a IH]; intros b Hn; simpl.
  - rewrite Ascii.eqb_refl. reflexivity.
  - destruct (Ascii.eqb_spec c sep) as [->|_]; [simpl in Hn; tauto|].
    rewrite IH by (simpl in Hn; tauto). reflexivity.
Qed.

Lemma trim_start_id : forall s, Forall (fun c => is_whitespace c = false) s ->
  trim_start s = s.
Proof. intros s Hs. destruct Hs as [|c s Hc _]; simpl; [reflexivity | rewrite Hc; reflexivity]. Qed.

Lemma trim_id : forall s, Forall (fun c => is_whitespace c = false) s -> trim s = s.
Proof.
  intros s Hs. unfold trim. rewrite (trim_start_id s Hs).
  rewrite trim_start_id by (apply Forall_rev; exact Hs).
  apply rev_involutive.
Qed.

Lemma scan_until_skip : forall stop a b i, ~ In stop a ->
  scan_until stop (a ++ b) i = scan_until stop b (i + List.length a).
Proof.
  intros stop. induction a as [|c a IH]; intros b i Hn; simpl.
  - rewrite Nat.add_0_r. reflexivity.
  - destruct (Ascii.eqb_spec c stop) as [->|_]; [simpl in Hn; tauto|].
    rewrite IH by (simpl in Hn; tauto). f_equal. lia.
Qed.

Lemma scan_until_stop : forall stop b i, scan_until stop (stop :: b) i = i.
Proof. intros. simpl. rewrite Ascii.eqb_refl. reflexivity. Qed.

(** Whatever the UUID heuristic answers, the range scan stops at the
    first comma. *)
Lemma scan_ranges_comma : forall chars l i,
  scan_ranges chars l i = scan_until "," l i.
Proof.
  intros chars. induction l as [|c l IH]; intros i; simpl; [reflexivity|].
  destruct (Ascii.eqb_spec c ","%char) as [->|Hne]; simpl.
  - destruct (_ && _ && _)%bool eqn:Hc; [|reflexivity].
    apply andb_true_iff in Hc as [_ ->]. reflexivity.
  - apply IH.
Qed.

(* ------------------------------------------------------------------ *)
(** ** One range token *)

Lemma is_digit_colon : is_digit ":" = false. Proof. reflexivity. Qed.
Lemma is_digit_comma : is_digit "," = false. Proof. reflexivity. Qed.
Lemma is_digit_dash : is_digit "-" = false. Proof. reflexivity. Qed.

(** The characters of a range token: digits and dashes. *)
Lemma range_to_string_chars : forall r c, In c (range_to_string r) ->
  is_digit c = true \/ c = "-"%char.
Proof.
  intros r c Hin. unfold range_to_string in Hin.
  pose proof (u64_to_string_digits r.(start)) as Hs.
  pose proof (u64_to_string_digits r.(end_)) as He.
  rewrite Forall_forall in Hs, He.
  destruct (r.(start) =? r.(end_)); [left; auto|].
  apply in_app_iff in Hin as [Hin|[<-|Hin]]; auto.
Qed.

Lemma range_to_string_no : forall r x, is_digit x = false -> x <> "-"%char ->
  ~ In x (range_to_string r).
Proof.
  intros r x Hx Hd Hin. destruct (range_to_string_chars r x Hin) as [H|H];
    congruence.
Qed.

Lemma range_to_string_nonempty : forall r, range_to_string r <> [].
Proof.
  intros r. unfold range_to_string. destruct (r.(start) =? r.(end_)).
  - apply u64_to_string_nonempty.
  - destruct (u64_to_string r.(start)) eqn:E;
      [exfalso; exact (u64_to_string_nonempty _ E) | discriminate].
Qed.

Lemma parse_range_part_token : forall u r, range_ok r ->
  parse_range_part {| uuid := u; ranges := [] |} (range_to_string r)
  = Ok {| uuid := u; ranges := [r] |}.
Proof.
  intros u [s e] Hr. unfold range_ok in Hr; simpl in Hr.
  assert (Hws : Forall (fun c => is_whitespace c = false)
                  (range_to_string {| start := s; end_ := e |})).
  { apply Forall_forall. intros c Hin.
    destruct (range_to_string_chars _ c Hin) as [H| ->];
      [apply digit_not_whitespace; exact H | reflexivity]. }
  unfold parse_range_part. rewrite (trim_id _ Hws).
  unfold range_to_string; simpl.
  pose proof (u64_to_string_digits s) as Ds.
  pose proof (u64_to_string_digits e) as De.
  destruct (Z.eqb_spec s e) as [<-|Hne].
  - destruct (u64_to_string s) as [|c0 rest] eqn:E;
      [exfalso; exact (u64_to_string_nonempty _ E)|].
    replace (str_contains "-" (c0 :: rest)) with false.
    2:{ symmetry. apply Bool.not_true_iff_false. unfold str_contains.
        rewrite existsb_exists. intros [x [Hin Hx]].
        apply Ascii.eqb_eq in Hx. subst x.
        exact (not_in_digits _ _ is_digit_dash Ds Hin). }
    cbn [andb]. rewrite <- E, parse_u64_to_string by lia. cbn [bind].
    unfold uuid_add_gtid, GtidRange_new. simpl.
    replace (s <? s) with false by (symmetry; apply Z.ltb_ge; lia).
    reflexivity.
  - destruct (u64_to_string s) as [|c0 rest] eqn:E;
      [exfalso; exact (u64_to_string_nonempty _ E)|].
    inversion Ds as [|? ? Hc0 _]; subst.
    replace (str_contains "-" ((c0 :: rest) ++ "-"%char :: u64_to_string e)) with true.
    2:{ symmetry. unfold str_contains. apply existsb_exists.
        exists "-"%char. split; [apply in_app_iff; right; left; reflexivity
                                | apply Ascii.eqb_refl]. }
    destruct (is_digit_not_sign c0 Hc0) as [_ Hm].
    cbn [app]. rewrite Hm. cbn [negb andb].
    rewrite app_comm_cons, <- E.
    rewrite split_on_app by (rewrite E; exact (not_in_digits _ _ is_digit_dash Ds)).
    rewrite split_on_no_sep by (exact (not_in_digits _ _ is_digit_dash De)).
    rewrite !parse_u64_to_string by lia. cbn [bind].
    unfold GtidRange_new.
    replace (e <? s) with false by (symmetry; apply Z.ltb_ge; lia).
    reflexivity.
Qed.

(* ------------------------------------------------------------------ *)
(** ** Parsing and printing well-formed GTID text *)

Lemma parse_loop_end : forall fuel chars g,
  parse_loop fuel chars (List.length chars) g = Ok g.
Proof. intros [|fuel] chars g; simpl; [reflexivity|]. rewrite Nat.ltb_irrefl. reflexivity. Qed.

Lemma entries_text_cons : forall e es,
  entries_text (e :: es) =
  entry_text e ++ match es with [] => [] | _ => ","%char :: entries_text es end.
Proof.
  intros e [|e' es]; unfold entries_text; simpl; [rewrite app_nil_r; reflexivity|].
  reflexivity.
Qed.

Lemma substring_app : forall P a b,
  substring (P ++ a ++ b) (List.length P) (List.length P + List.length a) = a.
Proof.
  intros. unfold substring. rewrite skipn_length_app.
  replace (List.length P + List.length a - List.length P)%nat with (List.length a) by lia.
  apply firstn_length_app.
Qed.

Lemma parse_loop_entries : forall es P m fuel,
  Forall entry_ok es -> (List.length es <= fuel)%nat ->
  parse_loop fuel (P ++ entries_text es) (List.length P) {| sets := m |}
  = Ok {| sets := fold_left entry_ins es m |}.
Proof.
  induction es as [|[u r] es IH]; intros P m fuel Hok Hf.
  - unfold entries_text; simpl. rewrite app_nil_r. apply parse_loop_end.
  - destruct fuel as [|fuel]; [simpl in Hf; lia|].
    inversion Hok as [|? ? [Hu Hr] Hes]; subst.
    rewrite entries_text_cons. unfold entry_text; simpl fst; simpl snd.
    set (rts := range_to_string r).
    set (R := match es with [] => [] | _ => ","%char :: entries_text es end).
    set (chars := P ++ (u ++ [":"%char] ++ rts) ++ R).
    assert (Hlen : List.length chars = (S (List.length P + List.length u) + List.length rts + List.length R)%nat).
    { unfold chars. rewrite !length_app. simpl. lia. }
    assert (H1 : Nat.ltb (List.length P) (List.length chars) = true).
    { apply Nat.ltb_lt. lia. }
    assert (H2 : scan_until ":" (skipn (List.length P) chars) (List.length P)
                 = (List.length P + List.length u)%nat).
    { unfold chars. rewrite skipn_length_app, <- app_assoc, scan_until_skip by exact Hu.
      apply scan_until_stop. }
    assert (H3 : Nat.leb (List.length chars) (List.length P + List.length u) = false).
    { apply Nat.leb_gt. lia. }
    assert (H4 : substring chars (List.length P) (List.length P + List.length u) = u).
    { unfold chars. rewrite <- app_assoc. apply substring_app. }
    assert (Ec : chars = (P ++ u ++ [":"%char]) ++ rts ++ R).
    { unfold chars. rewrite <- !app_assoc. reflexivity. }
    assert (Lp : List.length (P ++ u ++ [":"%char]) = S (List.length P + List.length u)).
    { rewrite !length_app. simpl. lia. }
    assert (Hrc : ~ In ","%char rts).
    { apply range_to_string_no; [reflexivity | discriminate]. }
    assert (H5 : scan_ranges chars (skipn (S (List.length P + List.length u)) chars)
                   (S (List.length P + List.length u))
                 = (S (List.length P + List.length u) + List.length rts)%nat).
    { rewrite scan_ranges_comma, Ec, <- Lp, skipn_length_app, scan_until_skip by exact Hrc.
      unfold R; destruct es; [reflexivity | apply scan_until_stop]. }
    assert (H6 : substring chars (S (List.length P + List.length u))
                   (S (List.length P + List.length u) + List.length rts) = rts).
    { rewrite Ec, <- Lp. apply substring_app. }
    assert (H7 : parse_range_parts {| uuid := u; ranges := [] |} (split_on "," rts)
                 = Ok {| uuid := u; ranges := [r] |}).
    { rewrite split_on_no_sep by exact Hrc. simpl.
      unfold rts. rewrite parse_range_part_token by exact Hr. reflexivity. }
    cbn [parse_loop]. rewrite H1. cbv zeta. rewrite H2, H3. cbn [negb].
    rewrite H4, H5, H6, H7. cbn [bind uuid fold_left].
    destruct es as [|e' es'].
    + replace (S (List.length P + List.length u) + List.length rts)%nat with (List.length chars)
        by (rewrite Hlen; unfold R; simpl; lia).
      rewrite Nat.ltb_irrefl. cbn [andb]. apply parse_loop_end.
    + set (j := (S (List.length P + List.length u) + List.length rts)%nat).
      set (P' := P ++ u ++ [":"%char] ++ rts ++ [","%char]).
      assert (Ec' : chars = P' ++ entries_text (e' :: es')).
      { unfold chars, P', R. rewrite <- !app_assoc. reflexivity. }
      assert (Ej : List.length (P ++ u ++ [":"%char] ++ rts) = j).
      { unfold j. rewrite !length_app. simpl. lia. }
      assert (Hj1 : Nat.ltb j (List.length chars) = true).
      { apply Nat.ltb_lt. rewrite Hlen. unfold R. simpl. lia. }
      assert (Hj2 : Ascii.eqb (nth j chars " "%char) "," = true).
      { replace chars with ((P ++ u ++ [":"%char] ++ rts) ++ ","%char :: entries_text (e' :: es'))
          by (unfold chars, R; rewrite <- !app_assoc; reflexivity).
        rewrite <- Ej, nth_middle. reflexivity. }
      rewrite Hj1, Hj2. cbn [andb].
      replace (S j) with (List.length P').
      2:{ unfold P'. rewrite <- Ej, !length_app. simpl. lia. }
      rewrite Ec'. apply IH; [exact Hes | simpl in Hf |- *; lia].
Qed.

Lemma str_compare_antisym : forall a b, str_compare a b = Lt -> str_compare b a = Gt.
Proof.
  induction a as [|x a IH]; intros [|y b] H; simpl in *; try discriminate; try reflexivity.
  rewrite Z.compare_antisym. destruct (char_code x ?= char_code y); simpl in *;
    try discriminate; auto.
Qed.

Lemma bt_insert_last {V} : forall (k : str) (v : V) m,
  (forall p, In p m -> str_compare k (fst p) = Gt) -> bt_insert k v m = m ++ [(k, v)].
Proof.
  intros k v. induction m as [|[k' v'] m IH]; intros H; simpl; [reflexivity|].
  pose proof (H (k', v') (or_introl eq_refl)) as Hk; simpl in Hk; rewrite Hk.
  rewrite IH by (intros p Hp; apply H; right; exact Hp). reflexivity.
Qed.

Lemma fold_entry_ins : forall es m, keys_ascending es = true ->
  (forall p e, In p m -> In e es -> str_compare (fst e) (fst p) = Gt) ->
  fold_left entry_ins es m = m ++ map entry_set es.
Proof.
  induction es as [|e es IH]; intros m Hk Hm; simpl; [rewrite app_nil_r; reflexivity|].
  simpl in Hk. apply andb_true_iff in Hk as [Hall Hk].
  rewrite forallb_forall in Hall.
  unfold entry_ins at 2. rewrite bt_insert_last.
  2:{ intros p Hp. apply Hm; [exact Hp | left; reflexivity]. }
  rewrite IH; [rewrite <- app_assoc; reflexivity | exact Hk |].
  intros p e' Hp He'. apply in_app_iff in Hp as [Hp|[<-|[]]].
  - apply Hm; [exact Hp | right; exact He'].
  - apply str_compare_antisym. specialize (Hall e' He'). simpl.
    destruct (str_compare (fst e) (fst e')); congruence.
Qed.

Lemma to_string_entries : forall es, Forall entry_ok es ->
  to_string {| sets := map entry_set es |} = entries_text es.
Proof.
  intros es Hok. unfold to_string. cbn [sets].
  match goal with |- context [flat_map ?f _] =>
    assert (Hf : forall l, Forall entry_ok l -> flat_map f (map entry_set l) = map entry_text l) end.
  { induction l as [|[u r] l IH]; intros Hl; [reflexivity|].
    cbn [map flat_map]. rewrite IH by (inversion Hl; assumption).
    unfold entry_set, uuid_to_string. cbn [fst snd ranges map join].
    destruct (range_to_string r) eqn:E; [exfalso; exact (range_to_string_nonempty r E)|].
    unfold entry_text. simpl. rewrite E. reflexivity. }
  rewrite (Hf es Hok). destruct es; reflexivity.
Qed.

Lemma entries_text_length : forall es, (List.length es <= List.length (entries_text es))%nat.
Proof.
  induction es as [|[u r] es IH]; [simpl; lia|].
  rewrite entries_text_cons, length_app. unfold entry_text. simpl fst; simpl snd.
  rewrite !length_app. simpl.
  destruct es; simpl in *; lia.
Qed.

Lemma entries_text_colon : forall es, es <> [] -> In ":"%char (entries_text es).
Proof.
  intros [|[u r] es] H; [congruence|].
  rewrite entries_text_cons. apply in_app_iff. left. unfold entry_text.
  apply in_app_iff. right. left. reflexivity.
Qed.

(** X22: for a text that is a comma-separated list of
    entries [uuid:range] (one range per UUID), with no ':' inside a UUID, each range written as
    [to_string] writes it ([N] for a singleton, [N-M] otherwise, u64 bounds
    with [N <= M]) and the UUIDs strictly ascending, [parse] returns the map
    from each UUID to its one range, and [to_string] of that set gives the
    text back unchanged. *)
Theorem parse_to_string_roundtrip : forall es,
  Forall entry_ok es -> keys_ascending es = true ->
  parse (entries_text es) = Ok {| sets := map entry_set es |} /\
  to_string {| sets := map entry_set es |} = entries_text es.
Proof.
  intros es Hok Hk. split; [|apply to_string_entries; exact Hok].
  destruct es as [|e es']; [reflexivity|].
  assert (Hc := entries_text_colon (e :: es') ltac:(discriminate)).
  unfold parse. destruct (entries_text (e :: es')) as [|c s] eqn:E; [destruct Hc|].
  destruct (str_eqb_spec (c :: s) (s_ "NULL")) as [Heq|_].
  - exfalso. rewrite Heq in Hc. simpl in Hc. repeat (destruct Hc as [Hc|Hc]; [discriminate|]). exact Hc.
  - rewrite <- E. pose proof (parse_loop_entries (e :: es') [] [] (S (List.length (entries_text (e :: es'))))
                   Hok) as Hl.
    cbn [app List.length] in Hl. unfold GtidSet_new. rewrite Hl.
    + f_equal. f_equal. rewrite fold_entry_ins by (exact Hk || (intros ? ? [])). reflexivity.
    + pose proof (entries_text_length (e :: es')) as Hn. cbn [List.length] in Hn. lia.
Qed.

Ltac not_in_str := let H := fresh in
  intro H; simpl in H; repeat (destruct H as [H|H]; [discriminate|]); exact H.

Lemma parse_to_string_roundtrip_witness :
  Forall entry_ok roundtrip_entries /\ keys_ascending roundtrip_entries = true /\
  entries_text roundtrip_entries = s_ "550e8400-e29b-41d4-a716-446655440000:1-100,650e8400-e29b-41d4-a716-446655440000:7" /\
  (parse (entries_text roundtrip_entries) = Ok {| sets := map entry_set roundtrip_entries |} /\
   to_string {| sets := map entry_set roundtrip_entries |} = entries_text roundtrip_entries).
Proof.
  assert (Hok : Forall entry_ok roundtrip_entries).
  { unfold roundtrip_entries, entry_ok, range_ok, U64_MAX.
    repeat apply Forall_cons; try apply Forall_nil; (split; [not_in_str | simpl; lia]). }
  assert (Hk : keys_ascending roundtrip_entries = true) by reflexivity.
  split; [exact Hok|]. split; [exact Hk|]. split; [vm_compute; reflexivity|].
  exact (parse_to_string_roundtrip roundtrip_entries Hok Hk).
Defined.

(* ------------------------------------------------------------------ *)
(** ** GTID sets: merging, recording, emptiness *)


Lemma range_merge_union : forall a b m, range_merge a b = Ok (Some m) ->
  forall n, range_contains m n = range_contains a n || range_contains b n.
Proof.
  intros [s1 e1] [s2 e2] m H n. unfold range_merge, add_u64 in H; simpl in H.
  destruct (U64_MAX <? e1 + 1); [discriminate|]. simpl in H.
  destruct (Z.geb_spec (e1 + 1) s2); [|discriminate].
  destruct (U64_MAX <? e2 + 1); [discriminate|]. simpl in H.
  destruct (Z.geb_spec (e2 + 1) s1); [|discriminate].
  inversion H; subst. unfold range_contains; simpl.
  destruct (Z.leb_spec (Z.min s1 s2) n), (Z.leb_spec n (Z.max e1 e2)),
    (Z.leb_spec s1 n), (Z.leb_spec n e1), (Z.leb_spec s2 n), (Z.leb_spec n e2);
    simpl; try reflexivity; lia.
Qed.

Lemma range_merge_ok : forall a b, a.(end_) < U64_MAX -> b.(end_) < U64_MAX ->
  exists o, range_merge a b = Ok o /\
    forall m, o = Some m -> m.(end_) < U64_MAX.
Proof.
  intros [s1 e1] [s2 e2] Ha Hb; simpl in *. unfold range_merge, add_u64; simpl.
  replace (U64_MAX <? e1 + 1) with false by (symmetry; apply Z.ltb_ge; lia).
  replace (U64_MAX <? e2 + 1) with false by (symmetry; apply Z.ltb_ge; lia).
  simpl. destruct (e1 + 1 >=? s2); [destruct (e2 + 1 >=? s1)|];
    eexists; (split; [reflexivity|]); intros m Hm; inversion Hm; subst; simpl; lia.
Qed.

Lemma insert_sorted_mem : forall r rs n,
  rs_mem (insert_sorted r rs) n = range_contains r n || rs_mem rs n.
Proof.
  intros r. induction rs as [|x rs IH]; intros n; simpl; [reflexivity|].
  destruct (range_leb r x); simpl; [reflexivity|].
  unfold rs_mem in *; simpl. rewrite IH.
  destruct (range_contains r n), (range_contains x n); reflexivity.
Qed.

Lemma sort_ranges_mem : forall rs n, rs_mem (sort_ranges rs) n = rs_mem rs n.
Proof.
  induction rs as [|r rs IH]; intros n; [reflexivity|].
  unfold sort_ranges; simpl. rewrite insert_sorted_mem.
  unfold sort_ranges in IH. rewrite IH. reflexivity.
Qed.

Lemma add_scan_mem : forall rest pre range rs, add_scan pre rest range = Ok (Some rs) ->
  forall n, rs_mem rs n = rs_mem pre n || rs_mem rest n || range_contains range n.
Proof.
  induction rest as [|r rest IH]; intros pre range rs H n; simpl in H; [discriminate|].
  destruct (range_merge r range) as [[merged|]| |] eqn:E1; simpl in H; try discriminate.
  - pose proof (range_merge_union _ _ _ E1 n) as U1.
    destruct rest as [|nxt rest'].
    + inversion H; subst. unfold rs_mem in *. rewrite existsb_app. simpl.
      rewrite U1. btauto.
    + destruct (range_merge merged nxt) as [[ma|]| |] eqn:E2; simpl in H; try discriminate;
        inversion H; subst; unfold rs_mem in *; rewrite existsb_app; simpl.
      * rewrite (range_merge_union _ _ _ E2 n), U1. btauto.
      * rewrite U1. btauto.
  - rewrite (IH _ _ _ H n). unfold rs_mem in *. rewrite existsb_app. simpl. btauto.
Qed.

Lemma add_scan_ok : forall rest pre range,
  Forall (fun r => r.(end_) < U64_MAX) rest -> range.(end_) < U64_MAX ->
  exists o, add_scan pre rest range = Ok o.
Proof.
  induction rest as [|r rest IH]; intros pre range Hr Hg; [eexists; reflexivity|].
  inversion Hr as [|? ? Hr0 Hrest]; subst. simpl.
  destruct (range_merge_ok r range Hr0 Hg) as [o [-> Ho]]. simpl.
  destruct o as [merged|]; [|apply IH; assumption].
  destruct rest as [|nxt rest']; [eexists; reflexivity|].
  inversion Hrest; subst.
  destruct (range_merge_ok merged nxt (Ho merged eq_refl) ltac:(assumption)) as [o2 [-> _]].
  simpl. destruct o2; eexists; reflexivity.
Qed.

Lemma singleton_contains : forall s n,
  range_contains {| start := s; end_ := s |} n = (n =? s).
Proof.
  intros s n. unfold range_contains; simpl.
  destruct (Z.eqb_spec n s), (Z.leb_spec s n), (Z.leb_spec n s); simpl; try reflexivity; lia.
Qed.

Lemma uuid_add_gtid_mem : forall us s us', uuid_add_gtid us s = Ok us' ->
  us'.(uuid) = us.(uuid) /\
  forall n, uuid_contains us' n = uuid_contains us n || (n =? s).
Proof.
  intros us s us' H. unfold uuid_add_gtid, GtidRange_new in H.
  rewrite Z.ltb_irrefl in H. simpl in H.
  destruct (add_scan [] us.(ranges) {| start := s; end_ := s |}) as [[rs|]| |] eqn:E;
    simpl in H; try discriminate; inversion H; subst; clear H; simpl; split; try reflexivity;
    intros n; unfold uuid_contains; simpl.
  - pose proof (add_scan_mem _ _ _ _ E n) as M. unfold rs_mem in M. rewrite M.
    rewrite singleton_contains. reflexivity.
  - pose proof (sort_ranges_mem (us.(ranges) ++ [{| start := s; end_ := s |}]) n) as M.
    unfold rs_mem in M. rewrite M, existsb_app. simpl. rewrite singleton_contains. btauto.
Qed.

Lemma uuid_add_gtid_ok : forall us s,
  s < U64_MAX -> Forall (fun r => r.(end_) < U64_MAX) us.(ranges) ->
  exists us', uuid_add_gtid us s = Ok us' /\ us'.(uuid) = us.(uuid) /\
    forall n, uuid_contains us' n = uuid_contains us n || (n =? s).
Proof.
  intros us s Hs Hr.
  assert (Hok : exists us', uuid_add_gtid us s = Ok us').
  { unfold uuid_add_gtid, GtidRange_new. rewrite Z.ltb_irrefl. simpl.
    destruct (add_scan_ok us.(ranges) [] {| start := s; end_ := s |} Hr Hs) as [o ->].
    simpl. destruct o; eexists; reflexivity. }
  destruct Hok as [us' E]. exists us'. split; [exact E|]. exact (uuid_add_gtid_mem _ _ _ E).
Qed.

Lemma add_scan_max_panic : forall rest pre,
  Forall (fun r => r.(end_) <= U64_MAX) rest ->
  (add_scan pre rest {| start := U64_MAX; end_ := U64_MAX |} = Panic <->
   Exists (fun r => U64_MAX - 1 <= r.(end_)) rest).
Proof.
  induction rest as [|r rest IH]; intros pre Hr; simpl.
  - split; [discriminate | intros H; inversion H].
  - inversion Hr as [|? ? Hr0 Hrest]; subst.
    unfold range_merge, add_u64 at 1; simpl.
    destruct (Z.ltb_spec U64_MAX (r.(end_) + 1)).
    + simpl. split; [intros _; left; unfold U64_MAX in *; lia | reflexivity].
    + simpl. destruct (Z.geb_spec (r.(end_) + 1) U64_MAX).
      * unfold add_u64. replace (U64_MAX <? U64_MAX + 1) with true
          by (symmetry; apply Z.ltb_lt; lia).
        simpl. split; [intros _; left; unfold U64_MAX in *; lia | reflexivity].
      * simpl. rewrite (IH (pre ++ [r]) Hrest). split.
        -- intros H1; right; exact H1.
        -- intros H1; inversion H1; subst; [unfold U64_MAX in *; lia | assumption].
Qed.

(** X3: When every range end is at most u64::MAX, UUIDGtidSet::add_gtid(u64::MAX) panics (overflow of end + 1 in merge) exactly when some stored range ends at u64::MAX - 1 or u64::MAX. *)
Theorem uuid_add_gtid_max_panics : forall us,
  Forall (fun r => r.(end_) <= U64_MAX) us.(ranges) ->
  (uuid_add_gtid us U64_MAX = Panic <->
   Exists (fun r => U64_MAX - 1 <= r.(end_)) us.(ranges)).
Proof.
  intros us Hr. rewrite <- (add_scan_max_panic us.(ranges) [] Hr).
  unfold uuid_add_gtid, GtidRange_new. rewrite Z.ltb_irrefl. simpl.
  destruct (add_scan [] us.(ranges) _) as [[rs|]| |]; simpl;
    split; intros H; try discriminate; reflexivity.
Qed.

(* maps *)
Lemma str_compare_refl : forall a, str_compare a a = Eq.
Proof. induction a; simpl; [reflexivity|]. rewrite Z.compare_refl. assumption. Qed.

Lemma str_compare_eq : forall a b, str_compare a b = Eq -> a = b.
Proof.
  induction a as [|x a IH]; intros [|y b] H; simpl in H; try discriminate; [reflexivity|].
  destruct (Z.compare_spec (char_code x) (char_code y)) as [Hc| |]; try discriminate.
  unfold char_code in Hc. apply Nat2Z.inj in Hc.
  rewrite <- (ascii_nat_embedding x), <- (ascii_nat_embedding y), Hc.
  f_equal. apply IH. exact H.
Qed.

Lemma str_eqb_refl : forall a, str_eqb a a = true.
Proof. intros a. destruct (str_eqb_spec a a); congruence. Qed.

Lemma bt_get_insert_same {V} : forall (m : BTreeMap V) k v, bt_get k (bt_insert k v m) = Some v.
Proof.
  induction m as [|[k' v'] m IH]; intros k v; simpl; [rewrite str_eqb_refl; reflexivity|].
  destruct (str_compare k k') eqn:C; simpl.
  - apply str_compare_eq in C. subst. rewrite str_eqb_refl. reflexivity.
  - rewrite str_eqb_refl. reflexivity.
  - destruct (str_eqb_spec k k') as [->|_]; [rewrite str_compare_refl in C; discriminate|].
    apply IH.
Qed.

Lemma bt_get_insert_other {V} : forall (m : BTreeMap V) k k2 v, k2 <> k ->
  bt_get k2 (bt_insert k v m) = bt_get k2 m.
Proof.
  induction m as [|[k' v'] m IH]; intros k k2 v Hne; simpl.
  - destruct (str_eqb_spec k2 k); congruence.
  - destruct (str_compare k k') eqn:C; simpl.
    + apply str_compare_eq in C. subst.
      destruct (str_eqb_spec k2 k'); congruence.
    + destruct (str_eqb_spec k2 k); [congruence|reflexivity].
    + destruct (str_eqb k2 k'); [reflexivity|]. apply IH. exact Hne.
Qed.

Lemma GtidSet_add_gtid_mem : forall gs g gs',
  GtidSet_add_gtid gs g = Ok gs' ->
  contains gs' g = true /\ forall h, contains gs h = true -> contains gs' h = true.
Proof.
  intros gs g gs' H. unfold GtidSet_add_gtid in H.
  destruct (split_on ":" g) as [|u [|sq [|? ?]]] eqn:Eg; try discriminate.
  destruct (parse_u64 sq) as [s|] eqn:Es; [|discriminate].
  set (us := match bt_get u gs.(sets) with Some us => us | None => {| uuid := u; ranges := [] |} end) in H.
  destruct (uuid_add_gtid us s) as [us'| |] eqn:Eu; simpl in H; try discriminate.
  inversion H; subst; clear H.
  destruct (uuid_add_gtid_mem _ _ _ Eu) as [_ M].
  split.
  - unfold contains. rewrite Eg, Es. cbn [sets]. rewrite bt_get_insert_same, M, Z.eqb_refl.
    apply orb_true_r.
  - intros h Hh. unfold contains in *.
    destruct (split_on ":" h) as [|u2 [|sq2 [|? ?]]]; try discriminate.
    destruct (parse_u64 sq2) as [s2|]; [|discriminate].
    destruct (bt_get u2 gs.(sets)) as [us2|] eqn:Eb; [|discriminate]. cbn [sets].
    destruct (str_eqb_spec u2 u) as [->|Hne].
    + rewrite bt_get_insert_same, M. unfold us. rewrite Eb, Hh. reflexivity.
    + rewrite bt_get_insert_other by exact Hne. rewrite Eb. exact Hh.
Qed.

Lemma bt_get_in {V} : forall (m : BTreeMap V) k v, bt_get k m = Some v -> In v (map snd m).
Proof.
  induction m as [|[k' v'] m IH]; intros k v H; simpl in *; [discriminate|].
  destruct (str_eqb k k'); [inversion H; left; reflexivity | right; eapply IH; eassumption].
Qed.

(** X5: A GtidSet for which is_empty returns true contains no GTID string at all. *)
Theorem is_empty_contains_nothing : forall gs g, is_empty gs = true -> contains gs g = false.
Proof.
  intros gs g H. unfold contains.
  destruct (split_on ":" g) as [|u [|sq [|? ?]]]; try reflexivity.
  destruct (parse_u64 sq); [|reflexivity].
  destruct (bt_get u gs.(sets)) as [us|] eqn:Eb; [|reflexivity].
  apply bt_get_in in Eb. unfold is_empty in H. rewrite forallb_forall in H.
  apply in_map_iff in Eb as [[k v] [<- Hin]]. specialize (H _ Hin). simpl in H.
  unfold uuid_contains. simpl in *. destruct v.(ranges); [reflexivity | discriminate].
Qed.


(** X1: GtidRange::merge of two ranges whose ends are below u64::MAX either returns a range containing exactly the numbers of the two ranges, or returns None, in which case a gap of at least one number separates them. *)
Theorem GtidRange_merge_spec : forall a b,
  a.(end_) < U64_MAX -> b.(end_) < U64_MAX ->
  (exists m, range_merge a b = Ok (Some m) /\
     forall n, range_contains m n = range_contains a n || range_contains b n)
  \/ (range_merge a b = Ok None /\ (a.(end_) + 1 < b.(start) \/ b.(end_) + 1 < a.(start))).
Proof.
  intros a b Ha Hb.
  destruct (range_merge_ok a b Ha Hb) as [[m|] [E _]].
  - left. exists m. split; [exact E|]. apply range_merge_union, E.
  - right. split; [exact E|].
    destruct a as [s1 e1], b as [s2 e2]; simpl in *.
    unfold range_merge, add_u64 in E; simpl in E.
    replace (U64_MAX <? e1 + 1) with false in E by (symmetry; apply Z.ltb_ge; lia).
    cbn [bind] in E.
    destruct (Z.geb_spec (e1 + 1) s2); [|lia].
    replace (U64_MAX <? e2 + 1) with false in E by (symmetry; apply Z.ltb_ge; lia).
    cbn [bind] in E.
    destruct (Z.geb_spec (e2 + 1) s1); [discriminate|lia].
Qed.


(** X2: When the sequence and every range end are below u64::MAX, UUIDGtidSet::add_gtid succeeds, keeps the UUID, and afterwards contains exactly the previous sequences plus the added one. *)
Theorem uuid_add_gtid_spec : forall us s,
  s < U64_MAX -> Forall (fun r => r.(end_) < U64_MAX) us.(ranges) ->
  exists us', uuid_add_gtid us s = Ok us' /\ us'.(uuid) = us.(uuid) /\
    forall n, uuid_contains us' n = uuid_contains us n || (n =? s).
Proof. exact uuid_add_gtid_ok. Qed.

(** X4: When GtidSet::add_gtid(g) succeeds, the new set contains g and still contains every GTID the old set contained. *)
Theorem GtidSet_add_gtid_contains : forall gs g gs',
  GtidSet_add_gtid gs g = Ok gs' ->
  contains gs' g = true /\ forall h, contains gs h = true -> contains gs' h = true.
Proof. exact GtidSet_add_gtid_mem. Qed.

(* ------------------------------------------------------------------ *)
(** ** UTF-8 decoding *)


Lemma utf8_next_valid_bounds : forall b rest n,
  utf8_next (b :: rest) = Valid n -> (1 <= n <= List.length (b :: rest))%nat.
Proof.
  intros b rest n H. unfold utf8_next in H.
  repeat match goal with
         | H : context [if ?c then _ else _] |- _ => destruct c
         | H : context [match ?l with [] => _ | _ :: _ => _ end] |- _ =>
             let x := fresh "x" in let l' := fresh "l" in destruct l as [|x l']
         end; inversion H; subst; simpl; lia.
Qed.

Lemma length_skipn_le_fuel : forall (bs : bytes) n fuel,
  (List.length bs <= S fuel)%nat -> (1 <= n <= List.length bs)%nat ->
  (List.length (skipn n bs) <= fuel)%nat.
Proof. intros. rewrite length_skipn. lia. Qed.

Lemma utf8_error_go_none_lossy : forall fuel bs i,
  (List.length bs <= fuel)%nat -> utf8_error_go fuel bs i = None -> lossy_go fuel bs = bs.
Proof.
  induction fuel as [|fuel IH]; intros bs i Hl H.
  - destruct bs; [reflexivity|simpl in Hl; lia].
  - destruct bs as [|b rest]; [reflexivity|].
    cbn [utf8_error_go lossy_go] in H |- *.
    destruct (utf8_next (b :: rest)) as [n|n|n] eqn:E; try discriminate.
    pose proof (utf8_next_valid_bounds b rest n E) as Hb.
    rewrite (IH _ _ (length_skipn_le_fuel _ _ _ Hl Hb) H).
    apply firstn_skipn.
Qed.

(** Valid UTF-8 is returned unchanged by the lossy decoder. *)
Lemma from_utf8_lossy_valid : forall bs, from_utf8 bs = inr bs -> from_utf8_lossy bs = bs.
Proof.
  unfold from_utf8, from_utf8_lossy. intros bs H.
  destruct (utf8_error_go (List.length bs) bs 0) eqn:E; [discriminate|].
  apply (utf8_error_go_none_lossy _ _ 0); [lia|exact E].
Qed.


(* ------------------------------------------------------------------ *)
(** ** Binlog event parsers *)


Lemma read_le_app : forall n v r, 0 <= v < 2 ^ (8 * Z.of_nat n) ->
  read_le n (le_bytes n v ++ r) = Ok (v, r).
Proof.
  intros n v r Hv. unfold read_le.
  rewrite <- (length_le_bytes n v) at 1. rewrite read_exact_app. cbn [bind fst snd].
  rewrite le_value_le_bytes, Z.mod_small by lia. reflexivity.
Qed.

Lemma read_exact_z_app : forall (l r : bytes),
  read_exact_z (Z.of_nat (List.length l)) (l ++ r) = Ok (l, r).
Proof.
  intros l r. unfold read_exact_z. rewrite length_app.
  replace (Z.of_nat (List.length l + List.length r) <? Z.of_nat (List.length l)) with false
    by (symmetry; apply Z.ltb_ge; lia).
  rewrite Nat2Z.id, firstn_length_app, skipn_length_app. reflexivity.
Qed.

Lemma read_exact_z_app' : forall n (l r : bytes), n = Z.of_nat (List.length l) ->
  read_exact_z n (l ++ r) = Ok (l, r).
Proof. intros; subst; apply read_exact_z_app. Qed.

Lemma read_u48_or_zero_app : forall v r, 0 <= v < 2 ^ 48 ->
  read_u48_or_zero (le_bytes 6 v ++ r) = (v, r).
Proof. intros v r Hv. unfold read_u48_or_zero. rewrite read_le_app by (simpl; lia). reflexivity. Qed.

Lemma read_lcb_small_app : forall b r, 0 <= b <= 250 -> read_lcb (b :: r) = Ok (b, r).
Proof.
  intros b r Hb. unfold read_lcb. cbn [read_u8 bind].
  replace (b <=? 250) with true by (symmetry; apply Z.leb_le; lia). reflexivity.
Qed.

Lemma bitmap_bytes_of_small : forall c, 0 <= c <= 250 -> bitmap_bytes_of c = Ok ((c + 7) / 8).
Proof.
  intros c Hc. unfold bitmap_bytes_of, add_u64.
  replace (U64_MAX <? c + 7) with false by (symmetry; apply Z.ltb_ge; unfold U64_MAX; lia).
  reflexivity.
Qed.

(** X7: parse_header reads back the six little-endian header fields of a buffer laid out as the 19-byte event header (type byte mapped by EventType::from_u8) and returns offset 19, whatever follows. *)
Theorem parse_header_roundtrip : forall ts ty sid len np fl rest,
  u_range 32 ts -> u_range 8 ty -> u_range 32 sid -> u_range 32 len ->
  u_range 32 np -> u_range 16 fl ->
  parse_header (le_bytes 4 ts ++ [ty] ++ le_bytes 4 sid ++ le_bytes 4 len
                ++ le_bytes 4 np ++ le_bytes 2 fl ++ rest)
  = Ok ({| h_timestamp := ts; event_type := EventType_from_u8 ty; server_id := sid;
           event_length := len; next_pos := np; h_flags := fl |}, 19%nat).
Proof.
  unfold u_range. intros ts ty sid len np fl rest Hts Hty Hsid Hlen Hnp Hfl.
  unfold parse_header.
  set (data := le_bytes 4 ts ++ _).
  assert (Hd : List.length data = (19 + List.length rest)%nat).
  { subst data. rewrite !length_app, !length_le_bytes. simpl. lia. }
  rewrite Hd. unfold EVENT_HEADER_SIZE.
  replace (Nat.ltb (19 + List.length rest) 19) with false by (symmetry; apply Nat.ltb_ge; lia).
  cbv iota. subst data. unfold read_u32_le, read_u16_le.
  rewrite read_le_app by (simpl; lia). cbn [bind app read_u8].
  rewrite read_le_app by (simpl; lia). cbn [bind].
  rewrite read_le_app by (simpl; lia). cbn [bind].
  rewrite read_le_app by (simpl; lia). cbn [bind].
  rewrite read_le_app by (simpl; lia). cbn [bind].
  do 2 f_equal. lia.
Qed.

(** X14: parse_rotate_event reads back the 8-byte little-endian position and a valid UTF-8 file name that follows it. *)
Theorem parse_rotate_roundtrip : forall pos name,
  u_range 64 pos -> from_utf8 name = inr name ->
  parse_rotate_event (le_bytes 8 pos ++ name)
  = Ok {| next_binlog_name := name; position := pos |}.
Proof.
  unfold u_range. intros pos name Hp Hn. unfold parse_rotate_event.
  rewrite length_app, length_le_bytes.
  replace (Nat.ltb (8 + List.length name) 8) with false by (symmetry; apply Nat.ltb_ge; lia).
  unfold read_u64_le. rewrite read_le_app by (simpl; lia). cbn [bind].
  rewrite from_utf8_lossy_valid by exact Hn. reflexivity.
Qed.

Lemma bytes_eqb_spec : forall a b, bytes_eqb a b = true <-> a = b.
Proof.
  induction a as [|x a IH]; intros [|y b]; simpl; split; intro H; try discriminate; auto.
  - apply andb_prop in H as [H1 H2]. apply Z.eqb_eq in H1. apply IH in H2. subst. reflexivity.
  - injection H as -> ->. rewrite Z.eqb_refl. simpl. apply IH. reflexivity.
Qed.

(** X6: BinlogParser::verify_magic accepts a buffer exactly when it starts with the four magic bytes fe 62 69 6e. *)
Theorem verify_magic_ok : forall data,
  verify_magic data = Ok tt <-> exists rest, data = BINLOG_MAGIC ++ rest.
Proof.
  intros data. unfold verify_magic. split.
  - destruct (Nat.ltb (List.length data) 4) eqn:L; [discriminate|].
    destruct (bytes_eqb (firstn 4 data) BINLOG_MAGIC) eqn:E; [|discriminate].
    intros _. apply bytes_eqb_spec in E. exists (skipn 4 data).
    rewrite <- E. symmetry. apply firstn_skipn.
  - intros [rest ->]. reflexivity.
Qed.

(** X13: parse_query_event reads back the thread id, execution time, database and query of a well-formed QUERY body with valid UTF-8 strings; the status block and the separator byte are skipped. *)
Theorem parse_query_roundtrip : forall tid et db ec status sep q,
  u_range 32 tid -> u_range 32 et -> u_range 8 (Z.of_nat (List.length db)) -> u_range 16 ec ->
  u_range 16 (Z.of_nat (List.length status)) ->
  from_utf8 db = inr db -> from_utf8 q = inr q ->
  parse_query_event (le_bytes 4 tid ++ le_bytes 4 et ++ [Z.of_nat (List.length db)]
                     ++ le_bytes 2 ec ++ le_bytes 2 (Z.of_nat (List.length status))
                     ++ status ++ db ++ [sep] ++ q)
  = Ok {| pq_thread_id := tid; pq_exec_time := et; pq_database := db; pq_query := q |}.
Proof.
  unfold u_range. intros tid et db ec status sep q Ht He Hd Hc Hs Vd Vq.
  unfold parse_query_event.
  rewrite !length_app, !length_le_bytes. cbn [List.length].
  replace (Nat.ltb _ 13) with false by (symmetry; apply Nat.ltb_ge; lia).
  unfold read_u32_le, read_u16_le.
  rewrite read_le_app by (simpl; lia). cbn [bind].
  rewrite read_le_app by (simpl; lia). cbn [bind app read_u8].
  rewrite read_le_app by (simpl; lia). cbn [bind].
  rewrite read_le_app by (simpl; lia). cbn [bind].
  rewrite Nat2Z.id, skipn_length_app.
  destruct (0 <? Z.of_nat (List.length db)) eqn:P.
  - rewrite read_exact_z_app. cbn [bind app read_u8].
    rewrite (from_utf8_lossy_valid db Vd), (from_utf8_lossy_valid q Vq). reflexivity.
  - apply Z.ltb_ge in P. destruct db as [|? ?]; [|simpl in P; lia].
    cbn [bind app read_u8 List.length repeat Z.to_nat Z.of_nat].
    rewrite (from_utf8_lossy_valid q Vq). reflexivity.
Qed.

(** X8: For a TABLE_MAP body with at most 250 column types and at most 250 metadata bytes, so that both counts fit the one-byte length prefix, parse_table_map_event reads back the table id, database, table name, column types and nullable bitmap. The column metadata bytes are skipped and one empty metadata entry per column is returned. Larger counts use the 0xFC prefix, which read_lcb reads as a u24 (C1). *)
Theorem parse_table_map_roundtrip : forall tid fl db tbl types meta nb rest,
  u_range 48 tid -> u_range 16 fl ->
  u_range 8 (Z.of_nat (List.length db)) -> u_range 8 (Z.of_nat (List.length tbl)) ->
  (List.length types <= 250)%nat -> (List.length meta <= 250)%nat ->
  Z.of_nat (List.length nb) = (Z.of_nat (List.length types) + 7) / 8 ->
  from_utf8 db = inr db -> from_utf8 tbl = inr tbl ->
  parse_table_map_event (le_bytes 6 tid ++ le_bytes 2 fl
      ++ [Z.of_nat (List.length db)] ++ db ++ [Z.of_nat (List.length tbl)] ++ tbl
      ++ [Z.of_nat (List.length types)] ++ types
      ++ [Z.of_nat (List.length meta)] ++ meta ++ nb ++ rest)
  = Ok {| table_id := tid; map_database := db; map_table := tbl;
          map_column_types := types; column_meta := repeat [] (List.length types);
          nullable_bitmap := nb |}.
Proof.
  unfold u_range. intros tid fl db tbl types meta nb rest Ht Hf Hd Htb Hty Hm Hnb Vd Vt.
  unfold parse_table_map_event.
  rewrite !length_app, !length_le_bytes. cbn [List.length].
  replace (Nat.ltb _ 8) with false by (symmetry; apply Nat.ltb_ge; lia).
  rewrite read_u48_or_zero_app by lia. unfold read_u16_le.
  rewrite read_le_app by (simpl; lia). cbn [bind app read_u8].
  rewrite read_exact_z_app. cbn [bind app read_u8].
  rewrite read_exact_z_app. cbn [bind app].
  rewrite read_lcb_small_app by lia. cbn [bind].
  rewrite read_exact_z_app. cbn [bind app].
  rewrite read_lcb_small_app by lia. cbn [bind].
  rewrite read_exact_z_app. cbn [bind].
  rewrite bitmap_bytes_of_small by lia. cbn [bind].
  rewrite <- Hnb, read_exact_z_app. cbn [bind].
  rewrite (from_utf8_lossy_valid db Vd), (from_utf8_lossy_valid tbl Vt), Nat2Z.id.
  reflexivity.
Qed.

Lemma read_exact_z_length : forall n cur x c,
  read_exact_z n cur = Ok (x, c) -> List.length x = Z.to_nat n.
Proof.
  unfold read_exact_z. intros n cur x c H.
  destruct (Z.of_nat (List.length cur) <? n) eqn:L; [discriminate|].
  injection H as <- _. apply Z.ltb_ge in L. rewrite length_firstn. lia.
Qed.

Ltac inv_bind H :=
  match type of H with
  | bind ?m _ = Ok _ =>
      let x := fresh "x" in let E := fresh "E" in
      destruct m as [x| |] eqn:E; cbn [bind] in H; [lazymatch type of x with prod _ _ => destruct x | _ => idtac end
                                   | discriminate | discriminate]
  end.



Lemma parse_cell_wire : forall c w rest row,
  cell_wire c w -> parse_cell (w ++ rest) row = (row ++ [c], rest).
Proof.
  intros c w rest row H. destruct H; unfold parse_cell; cbn [app read_u8].
  - reflexivity.
  - reflexivity.
  - unfold read_u16_le. rewrite read_le_app by (simpl; lia). reflexivity.
  - unfold read_u32_le. rewrite read_le_app by (simpl; lia). reflexivity.
  - repeat match goal with |- context [?b =? ?k] =>
      replace (b =? k) with false by (symmetry; apply Z.eqb_neq; assumption) end.
    reflexivity.
Qed.

Lemma land_255_bit : forall i, (i < 8)%nat -> (Z.land 255 (Z.shiftl 1 (Z.of_nat i)) =? 0) = false.
Proof.
  intros i Hi. do 8 (destruct i as [|i]; [reflexivity|]). lia.
Qed.

Lemma row_loop_present : forall cells ws col m rest row,
  Forall2 cell_wire cells ws ->
  (col + List.length cells <= 8 * m)%nat ->
  row_loop (List.length cells) col (repeat 255 m) (List.concat ws ++ rest) row
  = (row ++ cells, rest).
Proof.
  induction cells as [|c cells IH]; intros ws col m rest row Hw Hl.
  - inversion Hw; subst. rewrite app_nil_r. reflexivity.
  - inversion Hw as [|? w ? ws' Hc Hr]; subst. cbn [List.length row_loop List.concat] in *.
    rewrite repeat_length.
    assert (Hd : (col / 8 < m)%nat) by (apply Nat.Div0.div_lt_upper_bound; lia).
    replace (Nat.leb m (col / 8)) with false by (symmetry; apply Nat.leb_gt; exact Hd).
    rewrite nth_repeat_lt by exact Hd.
    rewrite land_255_bit by (apply Nat.mod_upper_bound; lia). cbn [negb].
    rewrite <- app_assoc, (parse_cell_wire c w) by exact Hc.
    rewrite IH with (m := m) by (assumption || lia).
    rewrite <- app_assoc. reflexivity.
Qed.

(** X10: For a WRITE_ROWS body with 1 to 250 columns (one-byte column count), all columns present, and the cells of one row followed by any bytes, parse_write_rows_event returns just that one row: parsing stops after the first row. *)
Theorem parse_write_rows_first_row_only : forall tid fl cells ws rest,
  u_range 48 tid -> u_range 16 fl ->
  (1 <= List.length cells <= 250)%nat -> Forall2 cell_wire cells ws ->
  parse_write_rows_event (le_bytes 6 tid ++ le_bytes 2 fl ++ [Z.of_nat (List.length cells)]
      ++ repeat 255 (Z.to_nat ((Z.of_nat (List.length cells) + 7) / 8))
      ++ List.concat ws ++ rest)
  = Ok {| wr_table_id := tid; wr_flags := fl;
          wr_column_count := Z.of_nat (List.length cells);
          wr_columns_present := repeat 255 (Z.to_nat ((Z.of_nat (List.length cells) + 7) / 8));
          wr_rows := [cells] |}.
Proof.
  unfold u_range. intros tid fl cells ws rest Ht Hf Hc Hw.
  unfold parse_write_rows_event.
  rewrite !length_app, !length_le_bytes. cbn [List.length].
  replace (Nat.ltb _ 6) with false by (symmetry; apply Nat.ltb_ge; lia).
  rewrite read_u48_or_zero_app by lia. unfold read_u16_le.
  rewrite read_le_app by (simpl; lia). cbn [bind app].
  rewrite read_lcb_small_app by lia. cbn [bind].
  rewrite bitmap_bytes_of_small by lia. cbn [bind].
  rewrite read_exact_z_app' with (l := repeat 255 _)
    by (rewrite repeat_length, Z2Nat.id by (apply Z.div_pos; lia); reflexivity).
  cbn [bind]. unfold parse_row_data. rewrite Nat2Z.id.
  rewrite row_loop_present.
  - destruct cells; [simpl in Hc; lia|]. reflexivity.
  - exact Hw.
  - apply Nat2Z.inj_le. rewrite Nat2Z.inj_add, Nat2Z.inj_mul, Z2Nat.id
      by (apply Z.div_pos; lia).
    pose proof (Z.mul_div_le (Z.of_nat (List.length cells) + 7) 8).
    pose proof (Z.mod_pos_bound (Z.of_nat (List.length cells) + 7) 8).
    pose proof (Z.div_mod (Z.of_nat (List.length cells) + 7) 8). lia.
Qed.

Lemma row_loop_absent : forall k col (bm : bytes) cur row,
  Forall (fun b => b = 0) bm ->
  row_loop k col bm cur row = (row ++ repeat Null k, cur).
Proof.
  induction k as [|k IH]; intros col bm cur row Hz.
  - rewrite app_nil_r. reflexivity.
  - cbn [row_loop]. match goal with |- context [Nat.leb ?a ?b] => destruct (Nat.leb a b) end.
    + rewrite IH by exact Hz. rewrite <- app_assoc. reflexivity.
    + match goal with |- context [nth ?i bm ?d] =>
        replace (nth i bm d) with 0;
        [| destruct (Nat.lt_ge_cases i (List.length bm)) as [Hl|Hl];
           [ rewrite Forall_forall in Hz; symmetry; apply Hz, nth_In, Hl
           | symmetry; apply nth_overflow, Hl ]]
      end.
      rewrite Z.land_0_l. cbn [Z.eqb negb].
      rewrite IH by exact Hz. rewrite <- app_assoc. reflexivity.
Qed.

Lemma parse_row_data_absent : forall k (bm : bytes) cur,
  Forall (fun b => b = 0) bm -> (1 <= k)%nat ->
  parse_row_data cur k bm = (Ok [repeat Null k], cur).
Proof.
  intros k bm cur Hz Hk. unfold parse_row_data. rewrite row_loop_absent by exact Hz.
  destruct k; [lia|]. reflexivity.
Qed.

Lemma update_rows_loop_stuck : forall fuel k (bm : bytes) b rest rows,
  Forall (fun b => b = 0) bm -> (1 <= k)%nat ->
  update_rows_loop fuel k bm bm (b :: rest) rows = None.
Proof.
  induction fuel as [|fuel IH]; intros k bm b rest rows Hz Hk; [reflexivity|].
  cbn [update_rows_loop]. rewrite parse_row_data_absent by assumption.
  cbn [repeat]. destruct k; [lia|]. cbn [repeat].
  rewrite parse_row_data_absent by (assumption || lia). cbn [repeat].
  apply IH; assumption.
Qed.

(** X11: For an UPDATE_ROWS body with a column count from 1 to 250 (one-byte count), two all-zero column bitmaps and at least one byte after them, the row loop of parse_update_rows_event consumes no input and never terminates. *)
Theorem parse_update_rows_no_present_column_hangs : forall fuel tid fl cc b rest,
  u_range 48 tid -> u_range 16 fl -> 1 <= cc <= 250 ->
  parse_update_rows_event fuel
    (le_bytes 6 tid ++ le_bytes 2 fl ++ [cc]
     ++ repeat 0 (Z.to_nat ((cc + 7) / 8)) ++ repeat 0 (Z.to_nat ((cc + 7) / 8))
     ++ b :: rest) = None.
Proof.
  unfold u_range. intros fuel tid fl cc b rest Ht Hf Hc.
  unfold parse_update_rows_event.
  rewrite !length_app, !length_le_bytes. cbn [List.length].
  replace (Nat.ltb _ 6) with false by (symmetry; apply Nat.ltb_ge; lia).
  rewrite read_u48_or_zero_app by lia. unfold read_u16_le.
  rewrite read_le_app by (simpl; lia). cbn [bind app].
  rewrite read_lcb_small_app by lia. cbn [bind].
  rewrite bitmap_bytes_of_small by lia. cbn [bind].
  rewrite read_exact_z_app' with (l := repeat 0 _)
    by (rewrite repeat_length, Z2Nat.id by (apply Z.div_pos; lia); reflexivity).
  cbn [bind].
  rewrite read_exact_z_app' with (l := repeat 0 _)
    by (rewrite repeat_length, Z2Nat.id by (apply Z.div_pos; lia); reflexivity).
  cbn [bind].
  rewrite update_rows_loop_stuck; [reflexivity| |lia].
  apply Forall_forall. intros x Hx. apply repeat_spec in Hx. exact Hx.
Qed.

Lemma parse_row_data_at_most_one : forall cur k bm rows c,
  parse_row_data cur k bm = (Ok rows, c) -> (List.length rows <= 1)%nat.
Proof.
  intros cur k bm rows c H. unfold parse_row_data in H.
  destruct (row_loop k 0 bm cur []) as [row c'].
  injection H as <- _. destruct row; simpl; lia.
Qed.

(** X12: A DELETE_ROWS event parsed by parse_delete_rows_event yields at most one ChangeEvent through delete_rows_to_change_event, since the parser returns at most one row. *)
Theorem delete_rows_at_most_one_change_event : forall data d tbl now,
  parse_delete_rows_event data = Ok d ->
  (List.length (delete_rows_to_change_event d tbl now) <= 1)%nat.
Proof.
  intros data d tbl now H. unfold parse_delete_rows_event in H.
  destruct (Nat.ltb (List.length data) 6); [discriminate|].
  destruct (read_u48_or_zero data) as [tid c0].
  repeat inv_bind H.
  destruct (parse_row_data _ _ _) as [rows c] eqn:R.
  destruct rows as [rs| |]; cbn [bind] in H; try discriminate.
  injection H as <-. unfold delete_rows_to_change_event. rewrite length_map. cbn.
  exact (parse_row_data_at_most_one _ _ _ _ _ R).
Qed.


Lemma hex_digit_not_colon : forall d, 0 <= d < 16 -> hex_digit d <> ":"%char.
Proof.
  intros d Hd.
  assert (Hs : exists k, (k < 16)%nat /\ d = Z.of_nat k) by (exists (Z.to_nat d); lia).
  destruct Hs as [k [Hk ->]].
  do 16 (destruct k as [|k]; [vm_compute; discriminate|]). lia.
Qed.

Lemma hex2_no_colon : forall b, 0 <= b < 256 -> ~ In ":"%char (hex2 b).
Proof.
  intros b Hb H. unfold hex2 in H. simpl in H.
  destruct H as [H|[H|[]]]; revert H; apply hex_digit_not_colon.
  - split; [apply Z.div_pos; lia | apply Z.div_lt_upper_bound; lia].
  - apply Z.mod_pos_bound. lia.
Qed.

Lemma nth_byte_range : forall (bs : bytes) i,
  Forall (fun b => 0 <= b < 256) bs -> 0 <= nth i bs 0 < 256.
Proof.
  intros bs i H. destruct (Nat.lt_ge_cases i (List.length bs)) as [L|L].
  - rewrite Forall_forall in H. apply H, nth_In, L.
  - rewrite nth_overflow by exact L. lia.
Qed.

Lemma format_uuid_no_colon : forall bs,
  Forall (fun b => 0 <= b < 256) bs -> ~ In ":"%char (format_uuid bs).
Proof.
  intros bs Hb H. unfold format_uuid in H.
  repeat (apply in_app_or in H; destruct H as [H|H]);
    try (revert H; apply hex2_no_colon, nth_byte_range, Hb);
    simpl in H; destruct H as [H|[]]; discriminate.
Qed.

Lemma u64_to_string_no_colon : forall n, ~ In ":"%char (u64_to_string n).
Proof.
  intros n H. pose proof (u64_to_string_digits n) as Hd.
  rewrite Forall_forall in Hd. specialize (Hd _ H). discriminate.
Qed.

Lemma parse_gtid_event_shape : forall flag ub seq rest,
  List.length ub = 16%nat -> (17 <= List.length rest)%nat -> u_range 64 seq ->
  parse_gtid_event (flag :: ub ++ le_bytes 8 seq ++ rest)
  = Ok {| ge_gtid := format_uuid ub ++ ":"%char :: u64_to_string seq;
          committed := (flag =? 0) |}.
Proof.
  unfold u_range. intros flag ub seq rest Hu Hr Hs. unfold parse_gtid_event.
  cbn [List.length]. rewrite !length_app, length_le_bytes.
  replace (Nat.ltb _ 42) with false by (symmetry; apply Nat.ltb_ge; lia).
  cbn [read_u8 bind]. rewrite <- Hu, read_exact_app. cbn [bind].
  unfold read_u64_le. rewrite read_le_app by (simpl; lia). reflexivity.
Qed.

(** X15: For a GTID event body whose sequence number is below u64::MAX, parse_gtid_event yields uuid:sequence with the UUID in hex-and-dash form. GtidSet::add_gtid accepts that string on any set whose ranges all end below u64::MAX, and contains then reports it present. *)
Theorem gtid_event_recorded : forall flag ub seq rest gs,
  List.length ub = 16%nat -> Forall (fun b => 0 <= b < 256) ub ->
  (17 <= List.length rest)%nat -> 0 <= seq < U64_MAX -> below_max gs ->
  exists ev gs',
    parse_gtid_event (flag :: ub ++ le_bytes 8 seq ++ rest) = Ok ev /\
    ev.(ge_gtid) = format_uuid ub ++ ":"%char :: u64_to_string seq /\
    GtidSet_add_gtid gs ev.(ge_gtid) = Ok gs' /\
    contains gs' ev.(ge_gtid) = true.
Proof.
  intros flag ub seq rest gs Hu Hb Hr Hs Hg.
  rewrite parse_gtid_event_shape; [| exact Hu | exact Hr | unfold u_range; unfold U64_MAX in Hs; lia].
  eexists. cbn [ge_gtid].
  assert (Hadd : exists gs', GtidSet_add_gtid gs (format_uuid ub ++ ":"%char :: u64_to_string seq)
                             = Ok gs').
  { unfold GtidSet_add_gtid.
    rewrite split_on_app by (apply format_uuid_no_colon, Hb).
    rewrite split_on_no_sep by apply u64_to_string_no_colon.
    rewrite parse_u64_to_string by (unfold U64_MAX in *; lia).
    set (us := match bt_get (format_uuid ub) (sets gs) with
               | Some us => us | None => {| uuid := format_uuid ub; ranges := [] |} end).
    assert (Hus : Forall (fun r => r.(end_) < U64_MAX) us.(ranges)).
    { subst us. destruct (bt_get (format_uuid ub) (sets gs)) as [v|] eqn:G; [|constructor].
      apply bt_get_in in G. unfold below_max in Hg. rewrite Forall_forall in Hg.
      apply in_map_iff in G as [[k v'] [Hv Hin]]. simpl in Hv. subst v'.
      exact (Hg _ Hin). }
    destruct (uuid_add_gtid_ok us seq) as [us' [E _]]; [lia|exact Hus|].
    rewrite E. eexists. reflexivity. }
  destruct Hadd as [gs' Hadd]. exists gs'. split; [reflexivity|]. split; [reflexivity|].
  split; [exact Hadd|]. exact (proj1 (GtidSet_add_gtid_mem _ _ _ Hadd)).
Qed.

(* ------------------------------------------------------------------ *)
(** ** Packets, greeting, handshake response, binlog positions *)


(** X16: For data of at most 2^24 - 1 bytes, write_packet produces the 4-byte header (length, sequence) followed by the data, and read_packet reads exactly that data back. *)
Theorem write_packet_read_packet : forall data seq rest,
  Z.of_nat (List.length data) <= MAX_PACKET_LENGTH ->
  write_packet data seq = Ok (frame seq data) /\
  read_packet (frame seq data ++ rest) = Ok (data, rest).
Proof.
  intros data seq rest H. split.
  - unfold write_packet, write_u24_le, frame, MAX_PACKET_LENGTH in *.
    rewrite Z.mod_small by lia.
    replace (2 ^ 24 <=? Z.of_nat (List.length data)) with false
      by (symmetry; apply Z.leb_gt; simpl; lia).
    cbn [bind]. rewrite <- app_assoc. reflexivity.
  - apply read_packet_frame, H.
Qed.


Lemma read_exact_app' : forall n (l r : bytes), n = List.length l ->
  read_exact n (l ++ r) = Ok (l, r).
Proof. intros; subst; apply read_exact_app. Qed.

Lemma nul_loop_app : forall sv acc r, ~ In 0 sv ->
  nul_loop (sv ++ 0 :: r) acc = Ok (acc ++ sv, r).
Proof.
  induction sv as [|b sv IH]; intros acc r Hn.
  - rewrite app_nil_r. reflexivity.
  - cbn [app nul_loop].
    replace (b =? 0) with false by (symmetry; apply Z.eqb_neq; intro; subst; apply Hn; left; reflexivity).
    rewrite IH by (intro; apply Hn; right; assumption). rewrite <- app_assoc. reflexivity.
Qed.

Lemma lor_shiftl_16 : forall hi lo, 0 <= lo < 2 ^ 16 -> 0 <= hi ->
  Z.lor (Z.shiftl hi 16) lo = hi * 65536 + lo.
Proof.
  intros hi lo Hl Hh.
  assert (D : Z.land (Z.shiftl hi 16) lo = 0).
  { apply Z.bits_inj'. intros n Hn. rewrite Z.land_spec, Z.bits_0.
    destruct (Z.lt_ge_cases n 16).
    - rewrite Z.shiftl_spec_low by lia. reflexivity.
    - rewrite (Z.bits_above_log2 lo n); [apply andb_false_r|lia|].
      destruct (Z.eq_dec lo 0) as [->|Hz]; [simpl; lia|].
      assert (Z.log2 lo < 16) by (apply Z.log2_lt_pow2; lia). lia. }
  rewrite <- Z.lxor_lor by exact D. rewrite <- Z.add_nocarry_lxor by exact D.
  rewrite Z.shiftl_mul_pow2 by lia. reflexivity.
Qed.

(** X18: GreetingPacket::parse reads back protocol version, NUL-terminated server version, thread id, both scramble parts (the second without its final byte), capabilities (upper 16 bits then lower) collation and status of a well-formed greeting. *)
Theorem greeting_parse_roundtrip : forall pv sv tid s1 filler cl coll st cu adl reserved s2 rest,
  u_range 8 pv -> ~ In 0 sv -> from_utf8 sv = inr sv -> u_range 32 tid ->
  List.length s1 = 8%nat -> u_range 16 cl -> u_range 8 coll -> u_range 16 st ->
  u_range 16 cu -> u_range 8 adl -> List.length reserved = 10%nat ->
  Z.of_nat (List.length s2) = Z.max 13 (adl - 8) ->
  GreetingPacket_parse ([pv] ++ sv ++ [0] ++ le_bytes 4 tid ++ s1 ++ [filler]
      ++ le_bytes 2 cl ++ [coll] ++ le_bytes 2 st ++ le_bytes 2 cu ++ [adl]
      ++ reserved ++ s2 ++ rest)
  = Ok {| protocol_version := pv; server_version := sv; g_thread_id := tid;
          scramble := s1 ++ removelast s2;
          server_capabilities := cu * 65536 + cl;
          server_collation := coll; server_status := st |}.
Proof.
  unfold u_range. intros pv sv tid s1 filler cl coll st cu adl reserved s2 rest
    Hpv Hn Hv Ht H1 Hcl Hco Hst Hcu Ha Hr H2.
  unfold GreetingPacket_parse. cbn [app read_u8 read_ctx map_err bind].
  unfold read_null_terminated_string. rewrite nul_loop_app by exact Hn. cbn [bind app].
  rewrite Hv. cbn [bind].
  unfold read_u32_le, read_u16_le.
  rewrite read_le_app by (simpl; lia). cbn [read_ctx map_err bind].
  rewrite (read_exact_app' 8 s1) by (symmetry; exact H1). cbn [read_ctx map_err bind app read_u8].
  rewrite read_le_app by (simpl; lia). cbn [read_ctx map_err bind app read_u8].
  rewrite read_le_app by (simpl; lia). cbn [read_ctx map_err bind].
  rewrite read_le_app by (simpl; lia). cbn [read_ctx map_err bind app read_u8].
  rewrite (read_exact_app' 10 reserved) by (symmetry; exact Hr). cbn [read_ctx map_err bind].
  replace (Z.to_nat (Z.max 13 (Z.max 0 (adl - 8)))) with (List.length s2) by lia.
  rewrite read_exact_app. cbn [read_ctx map_err bind].
  rewrite lor_shiftl_16 by lia.
  rewrite removelast_firstn_len, Nat.sub_1_r. reflexivity.
Qed.

(** X20: create_handshake_response always succeeds and produces capabilities 754181 (754189 with a database), four zero bytes, the collation, 23 zero bytes, the NUL-terminated user name, the length-prefixed auth response (0 or 20 bytes), the optional NUL-terminated database and the NUL-terminated plugin name. *)
Theorem handshake_response_layout : forall username password database scramble collation,
  exists auth,
    create_auth_response password scramble = Ok auth /\
    List.length auth = (match password with [] => 0 | _ => 20 end)%nat /\
    create_handshake_response username password database scramble collation
    = Ok (le_bytes 4 (match database with Some _ => 754189 | None => 754181 end)
          ++ [0; 0; 0; 0] ++ [collation] ++ repeat 0 23
          ++ as_bytes username ++ [0]
          ++ [Z.of_nat (List.length auth)] ++ auth
          ++ match database with Some db => as_bytes db ++ [0] | None => [] end
          ++ as_bytes (s_ "mysql_native_password") ++ [0]).
Proof.
  intros u p db s c.
  assert (A : exists auth, create_auth_response p s = Ok auth /\
                List.length auth = (match p with [] => 0 | _ => 20 end)%nat).
  { destruct p as [|ch p'].
    - exists []. split; reflexivity.
    - destruct (xor_loop_20 (sha1 (as_bytes (ch :: p')))
                  (sha1 (s ++ sha1 (sha1 (as_bytes (ch :: p')))))
                  (sha1_length _) (sha1_length _)) as [r [Hr [Hlen _]]].
      exists r. split; [exact Hr | exact Hlen]. }
  destruct A as [auth [Ha Hl]]. exists auth. split; [exact Ha|]. split; [exact Hl|].
  unfold create_handshake_response. rewrite Ha. cbn [bind].
  rewrite Z.mod_small
    by (rewrite Hl; destruct p; simpl; lia).
  destruct db as [d|]; cbn; repeat rewrite <- app_assoc; reflexivity.
Qed.

Lemma split_on_nonempty : forall sep s, split_on sep s <> [].
Proof.
  intros sep [|c s]; cbn [split_on]; [discriminate|].
  destruct (Ascii.eqb c sep); [discriminate|]. destruct (split_on sep s); discriminate.
Qed.

Lemma split_on_app_pre : forall sep a b,
  exists pre, pre <> [] /\ split_on sep (a ++ sep :: b) = pre ++ split_on sep b.
Proof.
  intros sep. induction a as [|c a IH]; intros b.
  - exists [[]]. split; [discriminate|]. cbn [app split_on]. rewrite Ascii.eqb_refl. reflexivity.
  - destruct (IH b) as [pre [Hp E]]. cbn [app split_on]. rewrite E.
    destruct (Ascii.eqb c sep).
    + exists ([] :: pre). split; [discriminate|reflexivity].
    + destruct pre as [|x xs]; [congruence|].
      exists ((c :: x) :: xs). split; [discriminate|reflexivity].
Qed.

Lemma last_app_nonempty {A} : forall (l m : list A) d, m <> [] -> last (l ++ m) d = last m d.
Proof.
  induction l as [|x l IH]; intros m d Hm; [reflexivity|].
  cbn [app last]. rewrite IH by exact Hm.
  destruct (l ++ m) eqn:E; [apply app_eq_nil in E; destruct E; congruence|reflexivity].
Qed.

Lemma last_split_on_app : forall sep a b,
  last (split_on sep (a ++ sep :: b)) [] = last (split_on sep b) [].
Proof.
  intros sep a b. destruct (split_on_app_pre sep a b) as [pre [_ E]]. rewrite E.
  apply last_app_nonempty, split_on_nonempty.
Qed.

(** X21: BinlogPosition::file_sequence of a file name ending in a dot followed by the decimal form of a u64 returns that number. *)
Theorem file_sequence_suffix : forall prefix n, 0 <= n <= U64_MAX ->
  file_sequence (prefix ++ "."%char :: u64_to_string n) = Some n.
Proof.
  intros prefix n Hn. unfold file_sequence. rewrite last_split_on_app.
  rewrite split_on_no_sep.
  - apply parse_u64_to_string, Hn.
  - intro H. pose proof (u64_to_string_digits n) as Hd.
    rewrite Forall_forall in Hd. specialize (Hd _ H). discriminate.
Qed.

Lemma nul_loop_no_nul : forall sv acc, ~ In 0 sv ->
  nul_loop sv acc = Err (ProtocolError "Failed to read string byte: failed to fill whole buffer").
Proof.
  induction sv as [|b sv IH]; intros acc Hn; [reflexivity|].
  cbn [nul_loop].
  replace (b =? 0) with false by (symmetry; apply Z.eqb_neq; intro; subst; apply Hn; left; reflexivity).
  apply IH. intro; apply Hn; right; assumption.
Qed.

(** X19: read_null_terminated_string fails with a read error when no NUL byte is present, and otherwise returns the bytes before the first NUL (if valid UTF-8) and leaves the cursor just after it. *)
Theorem read_null_terminated_string_spec : forall sv r, ~ In 0 sv ->
  read_null_terminated_string sv
    = Err (ProtocolError "Failed to read string byte: failed to fill whole buffer") /\
  read_null_terminated_string (sv ++ 0 :: r)
    = match from_utf8 sv with
      | inr s => Ok (s, r)
      | inl e => Err (ProtocolError (String.append "Invalid UTF-8 in string: " (utf8_error_msg e)))
      end.
Proof.
  intros sv r Hn. unfold read_null_terminated_string. split.
  - rewrite nul_loop_no_nul by exact Hn. reflexivity.
  - rewrite nul_loop_app by exact Hn. reflexivity.
Qed.

(* ------------------------------------------------------------------ *)
(** ** Witnesses *)


Lemma GtidRange_merge_spec_witness :
  ({| start := 1; end_ := 3 |}).(end_) < U64_MAX /\ ({| start := 4; end_ := 6 |}).(end_) < U64_MAX /\
  ((exists m, range_merge {| start := 1; end_ := 3 |} {| start := 4; end_ := 6 |} = Ok (Some m) /\
     forall n, range_contains m n = range_contains {| start := 1; end_ := 3 |} n
                                   || range_contains {| start := 4; end_ := 6 |} n)
   \/ (range_merge {| start := 1; end_ := 3 |} {| start := 4; end_ := 6 |} = Ok None /\
       (3 + 1 < 4 \/ 6 + 1 < 1))).
Proof.
  split; [unfold U64_MAX; simpl; lia|]. split; [unfold U64_MAX; simpl; lia|].
  apply (GtidRange_merge_spec {| start := 1; end_ := 3 |} {| start := 4; end_ := 6 |});
    unfold U64_MAX; simpl; lia.
Defined.

Lemma uuid_add_gtid_spec_witness :
  exists us', uuid_add_gtid {| uuid := uuid_a; ranges := [{| start := 1; end_ := 3 |}] |} 5 = Ok us' /\
    us'.(uuid) = uuid_a /\
    forall n, uuid_contains us' n
              = uuid_contains {| uuid := uuid_a; ranges := [{| start := 1; end_ := 3 |}] |} n || (n =? 5).
Proof.
  apply (uuid_add_gtid_spec {| uuid := uuid_a; ranges := [{| start := 1; end_ := 3 |}] |} 5).
  - unfold U64_MAX; lia.
  - repeat constructor; simpl; unfold U64_MAX; lia.
Defined.

Lemma uuid_add_gtid_max_panics_witness :
  uuid_add_gtid {| uuid := uuid_a; ranges := [{| start := 1; end_ := U64_MAX - 1 |}] |} U64_MAX = Panic.
Proof.
  apply (uuid_add_gtid_max_panics {| uuid := uuid_a; ranges := [{| start := 1; end_ := U64_MAX - 1 |}] |}).
  - apply Forall_cons; [cbn [end_]; lia | apply Forall_nil].
  - apply Exists_cons_hd. cbn [end_]. lia.
Defined.

Lemma GtidSet_add_gtid_contains_witness :
  GtidSet_add_gtid GtidSet_new gtid_a5
    = Ok {| sets := [(uuid_a, {| uuid := uuid_a; ranges := [{| start := 5; end_ := 5 |}] |})] |} /\
  contains {| sets := [(uuid_a, {| uuid := uuid_a; ranges := [{| start := 5; end_ := 5 |}] |})] |}
    gtid_a5 = true.
Proof.
  assert (H : GtidSet_add_gtid GtidSet_new gtid_a5
    = Ok {| sets := [(uuid_a, {| uuid := uuid_a; ranges := [{| start := 5; end_ := 5 |}] |})] |})
    by (vm_compute; reflexivity).
  split; [exact H|].
  exact (proj1 (GtidSet_add_gtid_contains _ _ _ H)).
Defined.

Lemma is_empty_contains_nothing_witness :
  is_empty {| sets := [(uuid_a, {| uuid := uuid_a; ranges := [] |})] |} = true /\
  contains {| sets := [(uuid_a, {| uuid := uuid_a; ranges := [] |})] |} gtid_a5 = false.
Proof.
  split; [reflexivity|]. apply is_empty_contains_nothing. reflexivity.
Defined.

Ltac urange := unfold u_range; simpl; lia.

Lemma parse_header_roundtrip_witness :
  parse_header ([1;0;0;0] ++ [30] ++ [9;0;0;0] ++ [40;0;0;0] ++ [77;0;0;0] ++ [1;0] ++ [8])
  = Ok ({| h_timestamp := 1; event_type := WriteRowsEvent; server_id := 9;
           event_length := 40; next_pos := 77; h_flags := 1 |}, 19%nat).
Proof.
  apply (parse_header_roundtrip 1 30 9 40 77 1 [8]); urange.
Defined.

Lemma parse_table_map_roundtrip_witness :
  parse_table_map_event ([5;0;0;0;0;0] ++ [0;0] ++ [2] ++ [100;98] ++ [1] ++ [116]
                         ++ [2] ++ [3;15] ++ [1] ++ [44] ++ [1])
  = Ok {| table_id := 5; map_database := [100;98]; map_table := [116];
          map_column_types := [3;15]; column_meta := [[]; []]; nullable_bitmap := [1] |}.
Proof.
  apply (parse_table_map_roundtrip 5 0 [100;98] [116] [3;15] [44] [1] []);
    try urange; try reflexivity; simpl; lia.
Defined.


Lemma parse_write_rows_first_row_only_witness :
  parse_write_rows_event ([1;0;0;0;0;0] ++ [0;0] ++ [3] ++ [255] ++ [1;9; 0; 2;1;1] ++ [1;7;0;0])
  = Ok {| wr_table_id := 1; wr_flags := 0; wr_column_count := 3; wr_columns_present := [255];
          wr_rows := [[UInt8 9; Null; UInt16 257]] |}.
Proof.
  apply (parse_write_rows_first_row_only 1 0 [UInt8 9; Null; UInt16 257]
           [[1;9]; [0]; [2;1;1]] [1;7;0;0]); try urange.
  repeat constructor; simpl; lia.
Defined.

Lemma parse_update_rows_no_present_column_hangs_witness :
  parse_update_rows_event 1000 ([1;0;0;0;0;0] ++ [0;0] ++ [2] ++ [0] ++ [0] ++ [5; 6]) = None.
Proof.
  apply (parse_update_rows_no_present_column_hangs 1000 1 0 2 5 [6]); urange.
Defined.

Lemma delete_rows_at_most_one_change_event_witness :
  parse_delete_rows_event [1;0;0;0;0;0; 0;0; 1; 1; 1;4; 1;5]
    = Ok {| dr_table_id := 1; dr_flags := 0; dr_column_count := 1;
            dr_columns_present := [1]; dr_rows := [[UInt8 4]] |} /\
  Nat.le (List.length (delete_rows_to_change_event
     {| dr_table_id := 1; dr_flags := 0; dr_column_count := 1;
        dr_columns_present := [1]; dr_rows := [[UInt8 4]] |}
     {| tm_database := s_ "db"; tm_table := s_ "t"; columns := [s_ "id"];
        column_types := [s_ "int"]; primary_key := [s_ "id"] |} 0)) 1.
Proof.
  assert (H : parse_delete_rows_event [1;0;0;0;0;0; 0;0; 1; 1; 1;4; 1;5]
    = Ok {| dr_table_id := 1; dr_flags := 0; dr_column_count := 1;
            dr_columns_present := [1]; dr_rows := [[UInt8 4]] |}) by (vm_compute; reflexivity).
  split; [exact H|]. exact (delete_rows_at_most_one_change_event _ _ _ _ H).
Defined.

Lemma parse_query_roundtrip_witness :
  parse_query_event ([1;0;0;0] ++ [2;0;0;0] ++ [2] ++ [0;0] ++ [1;0] ++ [99] ++ [100;98] ++ [0]
                     ++ [66;69;71;73;78])
  = Ok {| pq_thread_id := 1; pq_exec_time := 2; pq_database := [100;98];
          pq_query := [66;69;71;73;78] |}.
Proof.
  apply (parse_query_roundtrip 1 2 [100;98] 0 [99] 0 [66;69;71;73;78]);
    try urange; reflexivity.
Defined.

Lemma parse_rotate_roundtrip_witness :
  parse_rotate_event ([4;0;0;0;0;0;0;0] ++ [98;46;50])
  = Ok {| next_binlog_name := [98;46;50]; position := 4 |}.
Proof.
  apply (parse_rotate_roundtrip 4 [98;46;50]); [urange | reflexivity].
Defined.

Lemma gtid_event_recorded_witness :
  exists ev gs',
    parse_gtid_event (0 :: repeat 17 16 ++ le_bytes 8 7 ++ repeat 0 17) = Ok ev /\
    ev.(ge_gtid) = format_uuid (repeat 17 16) ++ ":"%char :: u64_to_string 7 /\
    GtidSet_add_gtid GtidSet_new ev.(ge_gtid) = Ok gs' /\
    contains gs' ev.(ge_gtid) = true.
Proof.
  apply (gtid_event_recorded 0 (repeat 17 16) 7 (repeat 0 17) GtidSet_new).
  - reflexivity.
  - repeat constructor; lia.
  - simpl. lia.
  - unfold U64_MAX. lia.
  - constructor.
Defined.

Lemma write_packet_read_packet_witness :
  write_packet [1;2;3] 5 = Ok (frame 5 [1;2;3]) /\
  read_packet (frame 5 [1;2;3] ++ [9]) = Ok ([1;2;3], [9]).
Proof.
  apply write_packet_read_packet. unfold MAX_PACKET_LENGTH. simpl. lia.
Defined.

Lemma greeting_parse_roundtrip_witness :
  GreetingPacket_parse ([10] ++ [56;46;48] ++ [0] ++ le_bytes 4 1 ++ [1;2;3;4;5;6;7;8] ++ [0]
      ++ le_bytes 2 65535 ++ [33] ++ le_bytes 2 2 ++ le_bytes 2 49663 ++ [21]
      ++ repeat 0 10 ++ [9;10;11;12;13;14;15;16;17;18;19;20;0] ++ [99])
  = Ok {| protocol_version := 10; server_version := [56;46;48]; g_thread_id := 1;
          scramble := [1;2;3;4;5;6;7;8] ++ removelast [9;10;11;12;13;14;15;16;17;18;19;20;0];
          server_capabilities := 49663 * 65536 + 65535;
          server_collation := 33; server_status := 2 |}.
Proof.
  apply (greeting_parse_roundtrip 10 [56;46;48] 1 [1;2;3;4;5;6;7;8] 0 65535 33 2 49663 21
           (repeat 0 10) [9;10;11;12;13;14;15;16;17;18;19;20;0] [99]);
    try urange; try reflexivity.
Defined.

Lemma file_sequence_suffix_witness :
  file_sequence (s_ "mysql-bin" ++ "."%char :: u64_to_string 3) = Some 3.
Proof.
  apply file_sequence_suffix. unfold U64_MAX. lia.
Defined.

Lemma read_null_terminated_string_spec_witness :
  read_null_terminated_string [56;46;48]
    = Err (ProtocolError "Failed to read string byte: failed to fill whole buffer") /\
  read_null_terminated_string ([56;46;48] ++ 0 :: [7])
    = match from_utf8 [56;46;48] with
      | inr s => Ok (s, [7])
      | inl e => Err (ProtocolError (String.append "Invalid UTF-8 in string: " (utf8_error_msg e)))
      end.
Proof.
  apply read_null_terminated_string_spec. simpl. intuition discriminate.
Defined.
